(** * Zero-shot classification pipeline
      (modelscope/pipelines/nlp/zero_shot_classification_pipeline.py)

    A shallow embedding of [ZeroShotClassificationPipeline]: the
    constructor's class indices, [_sanitize_parameters] and [postprocess].

    Conventions of the model.
    - Python exceptions are values of [exn]; a call that may raise returns
      a [result].
    - A keyword mapping ([**kwargs], a parameter dict) is a [gmap] from
      strings to Python values.
    - numpy's float64 scalars are idealised as real numbers: [exp], [+], [-]
      and [/] are exact and there is no NaN or infinity.  The statements
      about scores are statements about this exact arithmetic.
    - [scipy.special.softmax] and [ndarray.argsort] are library code; they
      are embedded from their documented definition.  numpy leaves the order
      of equal keys in [argsort] open; the model sorts stably, and no
      theorem below depends on how ties are ordered.
    - [postprocess] is embedded twice: on values, for what it computes, and
      on a store of objects ([Store]), for what it does to its arguments;
      [postprocess_refines] relates the two. *)

From Stdlib Require Import Reals Lra Lia Floats.
From stdpp Require Import base option list sorting strings gmap.

Local Open Scope string_scope.
Local Open Scope list_scope.

(** ** Exceptions and results *)

Inductive exn : Type :=
  | ValueError (msg : string)
  | KeyError (key : string)
  | IndexError
  | TypeError (msg : string)
  | AssertionError (msg : string).

Inductive result (A : Type) : Type :=
  | Ok (a : A)
  | Raise (e : exn).
Arguments Ok {A} a.
Arguments Raise {A} e.

#[global] Instance result_ret : MRet result := λ A a, Ok a.
#[global] Instance result_bind : MBind result := λ A B f m,
  match m with
  | Ok a => f a
  | Raise e => Raise e
  end.

(** [xs[i]] on a Python list, for a non-negative index. *)
Definition getitem {A} (xs : list A) (i : nat) : result A :=
  match xs !! i with
  | Some x => Ok x
  | None => Raise IndexError
  end.

(** [d[k]] on a Python dict. *)
Definition dict_getitem {A} (d : gmap string A) (k : string) : result A :=
  match d !! k with
  | Some v => Ok v
  | None => Raise (KeyError k)
  end.

(** [[f(x) for x in xs]], where [f] may raise. *)
Fixpoint traverse {A B} (f : A → result B) (xs : list A) : result (list B) :=
  match xs with
  | [] => Ok []
  | x :: xs' => y ← f x; ys ← traverse f xs'; Ok (y :: ys)
  end.

(** ** Python values carried by keyword arguments *)

#[local] Unset Elimination Schemes.
Inductive pyval : Type :=
  | PyNone
  | PyBool (b : bool)
  | PyStr (s : string)
  | PyList (xs : list pyval).
#[local] Set Elimination Schemes.

(** ** Parameter sanitization *)

Module Sanitize.

(** [kwargs.pop(k)] after the caller checked [k in kwargs], and
    [kwargs.pop(k, default)]: the value and the remaining mapping. *)
Definition pop (k : string) (kwargs : gmap string pyval)
  : result (pyval * gmap string pyval) :=
  match kwargs !! k with
  | Some v => Ok (v, delete k kwargs)
  | None => Raise (KeyError k)
  end.

Definition pop_default (k : string) (d : pyval) (kwargs : gmap string pyval)
  : pyval * gmap string pyval :=
  match kwargs !! k with
  | Some v => (v, delete k kwargs)
  | None => (d, kwargs)
  end.

Definition missing_label_msg : string := "You must include at least one label.".

(** The triple [(preprocess_params, forward_params, postprocess_params)]. *)
Definition _sanitize_parameters (kwargs : gmap string pyval)
  : result (gmap string pyval * gmap string pyval * gmap string pyval) :=
  let preprocess_params : gmap string pyval := ∅ in
  let postprocess_params : gmap string pyval := ∅ in
  '(preprocess_params, postprocess_params, kwargs) ←
    (if bool_decide (is_Some (kwargs !! "candidate_labels")) then
       '(candidate_labels, kwargs) ← pop "candidate_labels" kwargs;
       Ok (<["candidate_labels" := candidate_labels]> preprocess_params,
           <["candidate_labels" := candidate_labels]> postprocess_params,
           kwargs)
     else Raise (ValueError missing_label_msg));
  let '(hypothesis_template, kwargs) :=
    pop_default "hypothesis_template" (PyStr "{}") kwargs in
  let preprocess_params :=
    <["hypothesis_template" := hypothesis_template]> preprocess_params in
  let '(multi_label, kwargs) :=
    pop_default "multi_label" (PyBool false) kwargs in
  let postprocess_params :=
    <["multi_label" := multi_label]> postprocess_params in
  Ok (preprocess_params, ∅, postprocess_params).

End Sanitize.

(** ** The pipeline runtime *)

Inductive stage : Type := Preprocess | Forward | Postprocess.

Section runtime.
Context {Input Batch Output Value : Type}.
(** The three stages, each called with its own parameter set. *)
Variable preprocess : Input → gmap string pyval → result Batch.
Variable forward : Batch → gmap string pyval → result Output.
Variable postprocess : Output → gmap string pyval → result Value.

(** Modelled from the spec: the call sequence of the generic pipeline
    runtime (the base class [Pipeline], which this file only inherits
    from), as the data flow of the specification gives it: the
    parameter sanitizer splits the keyword arguments into the three
    parameter sets, then the preprocessor, the model's forward pass and
    the postprocess step run in this order.  The first component lists
    the stages that were entered. *)
Definition pipeline_call (input : Input) (kwargs : gmap string pyval)
  : list stage * result Value :=
  match Sanitize._sanitize_parameters kwargs with
  | Raise e => ([], Raise e)
  | Ok (preprocess_params, forward_params, postprocess_params) =>
      match preprocess input preprocess_params with
      | Raise e => ([Preprocess], Raise e)
      | Ok batch =>
          match forward batch forward_params with
          | Raise e => ([Preprocess; Forward], Raise e)
          | Ok out =>
              ([Preprocess; Forward; Postprocess],
               postprocess out postprocess_params)
          end
      end
  end.
End runtime.

(** ** Arithmetic on array entries *)

(** What [postprocess] asks of the entries of an array: the operations of
    softmax, the comparison behind Python's [>=], and the order in which
    [argsort] arranges them. *)
Class Scalar (F : Type) : Type := {
  s_exp : F → F;
  s_add : F → F → F;
  s_sub : F → F → F;
  s_div : F → F → F;
  (** [np.maximum] *)
  s_max : F → F → F;
  s_zero : F;
  s_is_nan : F → bool;
  (** [x <= y] as Python evaluates it *)
  s_le : F → F → Prop;
  (** the order of [ndarray.sort] and [argsort] *)
  s_sort_le : F → F → Prop;
  s_sort_le_dec :: ∀ x y, Decision (s_sort_le x y)
}.

(** Exact arithmetic: the entries are real numbers, every operation is the
    mathematical one, and there is no NaN, no infinity and no rounding. *)
#[global] Instance exact_reals : Scalar R := {|
  s_exp := exp;
  s_add := Rplus;
  s_sub := Rminus;
  s_div := Rdiv;
  s_max := Rmax;
  s_zero := 0%R;
  s_is_nan := λ _, false;
  s_le := Rle;
  s_sort_le := Rle;
  s_sort_le_dec := Rle_dec
|}.

(** Binary64, the arithmetic numpy computes in: Rocq's primitive floats
    for [+], [-], [/] and the comparisons.  [np.exp] is library code whose
    last bits are not fixed; it is a parameter, and a statement about
    binary64 says what it needs of it. *)
Module Binary64.

(** [np.maximum]: the first operand when it is NaN or not smaller, else the
    second; so a NaN on either side comes through. *)
Definition maximum (x y : float) : float :=
  if PrimFloat.leb y x || PrimFloat.is_nan x then x else y.

(** The order of [ndarray.sort]: ascending, NaN after every number. *)
Definition sort_leb (x y : float) : bool :=
  PrimFloat.is_nan y || PrimFloat.leb x y.



End Binary64.

Definition binary64 (fexp : float → float) : Scalar float := {|
  s_exp := fexp;
  s_add := PrimFloat.add;
  s_sub := PrimFloat.sub;
  s_div := PrimFloat.div;
  s_max := Binary64.maximum;
  s_zero := 0%float;
  s_is_nan := PrimFloat.is_nan;
  s_le := λ x y, PrimFloat.leb x y = true;
  s_sort_le := λ x y, Binary64.sort_leb x y = true;
  s_sort_le_dec := λ x y, decide (Binary64.sort_leb x y = true)
|}.

(** Binary64 with its special values and without its rounding: a number is
    a real number, and NaN and the two infinities follow the IEEE rules.
    Overflow and the sign of zero are left out. *)
Inductive xreal : Type :=
  | Fin (r : R)
  | PInf
  | NInf
  | NaN.

Module Xreal.

Definition is_nan (x : xreal) : bool :=
  match x with NaN => true | _ => false end.


Definition exp (x : xreal) : xreal :=
  match x with
  | Fin r => Fin (Rtrigo_def.exp r)
  | PInf => PInf
  | NInf => Fin 0
  | NaN => NaN
  end.

Definition opp (x : xreal) : xreal :=
  match x with
  | Fin r => Fin (- r)
  | PInf => NInf
  | NInf => PInf
  | NaN => NaN
  end.

Definition add (x y : xreal) : xreal :=
  match x, y with
  | NaN, _ | _, NaN => NaN
  | Fin a, Fin b => Fin (a + b)
  | PInf, NInf | NInf, PInf => NaN
  | PInf, _ | _, PInf => PInf
  | NInf, _ | _, NInf => NInf
  end.

Definition sub (x y : xreal) : xreal := add x (opp y).

Definition div (x y : xreal) : xreal :=
  match x, y with
  | NaN, _ | _, NaN => NaN
  | Fin a, Fin b =>
      if Req_dec_T b 0 then
        if Req_dec_T a 0 then NaN else if Rlt_dec 0 a then PInf else NInf
      else Fin (a / b)
  | Fin _, _ => Fin 0
  | _, (PInf | NInf) => NaN
  | PInf, Fin b => if Rle_dec 0 b then PInf else NInf
  | NInf, Fin b => if Rle_dec 0 b then NInf else PInf
  end.

(** [x <= y], false as soon as an operand is NaN. *)
Definition le (x y : xreal) : Prop :=
  match x, y with
  | NaN, _ | _, NaN => False
  | NInf, _ | _, PInf => True
  | Fin a, Fin b => (a <= b)%R
  | _, _ => False
  end.

#[global] Instance le_dec x y : Decision (le x y).
Proof.
  destruct x as [a| | |], y as [b| | |]; simpl;
    try (left; exact I); try (right; exact (λ H, H)).
  apply Rle_dec.
Defined.

Definition maximum (x y : xreal) : xreal :=
  if bool_decide (le y x) || is_nan x then x else y.

(** The order of [ndarray.sort]: ascending, NaN after every number. *)
Definition sort_le (x y : xreal) : Prop :=
  match y with NaN => True | _ => le x y end.

#[global] Instance sort_le_dec x y : Decision (sort_le x y).
Proof. destruct y; simpl; apply _. Defined.

End Xreal.

#[global] Instance exact_with_specials : Scalar xreal | 10 := {|
  s_exp := Xreal.exp;
  s_add := Xreal.add;
  s_sub := Xreal.sub;
  s_div := Xreal.div;
  s_max := Xreal.maximum;
  s_zero := Fin 0;
  s_is_nan := Xreal.is_nan;
  s_le := Xreal.le;
  s_sort_le := Xreal.sort_le;
  s_sort_le_dec := Xreal.sort_le_dec
|}.

(** ** Arrays and the library functions used by [postprocess] *)

(** A 2-D float array is the list of its rows, a 1-D array the list of its
    entries.  The functions below are written once for every arithmetic
    on the entries ([Scalar]); [ndarray1] and [ndarray2] are the arrays of
    exact real numbers. *)
Abbreviation ndarray1 := (list R).
Abbreviation ndarray2 := (list (list R)).

Module Numpy.
Section scalar.
Context {F : Type} {arith : Scalar F}.

(** [a[..., i]] on a 2-D array: entry [i] of every row. *)
Definition take_col (a : list (list F)) (i : nat) : result (list F) :=
  traverse (λ row, getitem row i) a.

(** [a[..., [i0, i1, ...]]] on a 2-D array: the listed entries of every
    row, in the listed order. *)
Definition take_cols (a : list (list F)) (idx : list nat)
  : result (list (list F)) :=
  traverse (λ row, traverse (getitem row) idx) a.

(** [np.amax] along an axis: a zero-size axis has no maximum. *)
Definition amax (x : list F) : result F :=
  match x with
  | [] => Raise (ValueError
      "zero-size array to reduction operation maximum which has no identity")
  | x0 :: xs => Ok (foldl s_max x0 xs)
  end.

(** [np.sum] along an axis: the entries are added to 0 from left to right.
    (numpy does so for fewer than eight entries and adds in blocks beyond;
    the order shows in the last bits of a binary64 sum only.) *)
Definition sum (x : list F) : F := foldl s_add s_zero x.

(** [scipy.special.softmax] along the last axis of a 1-D array:
    [x_max = amax(x); e = exp(x - x_max); e / sum(e)]. *)
Definition softmax (x : list F) : result (list F) :=
  x_max ← amax x;
  let exp_x_shifted := (λ v, s_exp (s_sub v x_max)) <$> x in
  Ok ((λ e, s_div e (sum exp_x_shifted)) <$> exp_x_shifted).

(** The same along the last axis of a 2-D array: row by row. *)
Definition softmax_rows (x : list (list F)) : result (list (list F)) :=
  traverse softmax x.

(** Order of the sort keys: a pair (value, position) comes before another
    when its value does in the sort order of the entries. *)
Definition key_le (p q : F * nat) : Prop := s_sort_le p.1 q.1.

#[global] Instance key_le_dec p q : Decision (key_le p q) :=
  s_sort_le_dec p.1 q.1.

(** [a.argsort()]: the entries of [a] paired with their positions are
    sorted by ascending value; the positions are returned. *)
Definition sorted_pairs (a : list F) : list (F * nat) :=
  merge_sort key_le (zip a (seq 0 (length a))).

Definition argsort (a : list F) : list nat := (sorted_pairs a).*2.

End scalar.
End Numpy.

(** ** The pipeline object *)

Record ZeroShotClassificationPipeline : Type := {
  entailment_id : nat;
  contradiction_id : nat
}.

(** What the caller passes as [model]: a model identifier, a loaded
    [SbertForZeroShotClassification], or anything else. *)
Inductive model_arg : Type :=
  | ModelId (name : string)
  | ModelInstance
  | NotAModel.

(** [__init__]: the assertion on [model] and the two class indices.
    Loading the model and building the default preprocessor are the
    collaborators' work and leave the two indices alone. *)
Definition __init__ (model : model_arg)
  : result ZeroShotClassificationPipeline :=
  match model with
  | NotAModel =>
      Raise (AssertionError
        "model must be a single str or SbertForZeroShotClassification")
  | ModelId _ | ModelInstance =>
      Ok {| entailment_id := 0; contradiction_id := 2 |}
  end.

(** The value of [postprocess]: the entries under [OutputKeys.LABELS] and
    [OutputKeys.SCORES]. *)
Record ranked (F : Type) : Type := {
  labels : list string;
  scores : list F
}.
Arguments labels {F} r.
Arguments scores {F} r.

(** ** Postprocessing *)

Section postprocess.
Context {F : Type} {arith : Scalar F}.

(** The array [scores] of [postprocess], before it is sorted. *)
Definition label_scores (self : ZeroShotClassificationPipeline)
    (logits : list (list F)) (candidate_labels : list string)
    (multi_label : bool) : result (list F) :=
  if multi_label || bool_decide (length candidate_labels = 1) then
    logits ← Numpy.take_cols logits [contradiction_id self; entailment_id self];
    probs ← Numpy.softmax_rows logits;
    Numpy.take_col probs 1
  else
    logits ← Numpy.take_col logits (entailment_id self);
    Numpy.softmax logits.

Definition postprocess (self : ZeroShotClassificationPipeline)
    (inputs : gmap string (list (list F))) (candidate_labels : list string)
    (multi_label : bool) : result (ranked F) :=
  logits ← dict_getitem inputs "logits";
  scores ← label_scores self logits candidate_labels multi_label;
  let reversed_index := reverse (Numpy.argsort scores) in
  out_labels ← traverse (getitem candidate_labels) reversed_index;
  out_scores ← traverse (getitem scores) reversed_index;
  Ok {| labels := out_labels; scores := out_scores |}.

(** The score of one label as the specification words it: select the
    label's contradiction and entailment logits, apply softmax across just
    those two values, keep the entailment probability. *)
Definition independent_score (self : ZeroShotClassificationPipeline)
    (row : list F) : result F :=
  c ← getitem row (contradiction_id self);
  e ← getitem row (entailment_id self);
  probs ← Numpy.softmax [c; e];
  getitem probs 1.

(** A logits tensor as the model produces it: three class logits per row. *)
Definition valid_logits (logits : list (list F)) : Prop :=
  Forall (λ row, length row = 3) logits.

End postprocess.

(** ** Objects, identity and aliasing *)

Module OutputKeys.
(** Modelled from the spec: the key of the labels entry of the result
    mapping, a constant of [OutputKeys] in the package's [outputs] module,
    which is not part of this file; the specification names the entry
    [labels]. *)
Definition LABELS : string := "labels".
(** Modelled from the spec: the key of the scores entry, from the same
    module; the specification names the entry [scores]. *)
Definition SCORES : string := "scores".
End OutputKeys.

(** [postprocess] once more, now on objects: every dict, list and array
    lives at a location of a store, a call receives locations, and the
    store it leaves behind is part of its outcome, also when it raises.
    Strings, floats and integers are immutable values and are stored
    inline. *)
Module Store.

Abbreviation loc := positive.

Inductive obj : Type :=
  | ODict (d : gmap string loc)
  | OStrList (xs : list string)
  | OFloatList (xs : list R)
  | OIndices (xs : list nat)
  | OArray1 (a : ndarray1)
  | OArray2 (a : ndarray2)
  (** [base[..., col]]: a view, it shares the buffer of [base]. *)
  | OColumnView (base : loc) (col : nat).

Abbreviation heap := (gmap loc obj).

Definition M (A : Type) : Type := heap → result A * heap.

#[global] Instance M_ret : MRet M := λ A a h, (Ok a, h).
#[global] Instance M_bind : MBind M := λ A B f m h,
  match m h with
  | (Ok a, h') => f a h'
  | (Raise e, h') => (Raise e, h')
  end.

Definition lift {A} (r : result A) : M A := λ h, (r, h).

(** A new object, at a location that is not in use. *)
Definition alloc (o : obj) : M loc := λ h,
  let l := fresh (dom h) in (Ok l, <[l := o]> h).

(** The object behind a reference.  References of a Python run always
    lead to an object; the model raises on one that does not. *)
Definition read (l : loc) : M obj := λ h,
  match h !! l with
  | Some o => (Ok o, h)
  | None => (Raise (TypeError "no such object"), h)
  end.

Definition read_dict (l : loc) : M (gmap string loc) :=
  o ← read l;
  match o with
  | ODict d => mret d
  | _ => lift (Raise (TypeError "object is not subscriptable by key"))
  end.

Definition read_str_list (l : loc) : M (list string) :=
  o ← read l;
  match o with
  | OStrList xs => mret xs
  | _ => lift (Raise (TypeError "object is not a list of labels"))
  end.

Definition read_indices (l : loc) : M (list nat) :=
  o ← read l;
  match o with
  | OIndices xs => mret xs
  | _ => lift (Raise (TypeError "object is not a sequence of indices"))
  end.

Definition read_array2 (l : loc) : M ndarray2 :=
  o ← read l;
  match o with
  | OArray2 a => mret a
  | _ => lift (Raise (TypeError "object is not a 2-D array"))
  end.

(** The entries of a 1-D array; those of a view are read from the buffer
    of its base. *)
Definition read_array1 (l : loc) : M ndarray1 :=
  o ← read l;
  match o with
  | OArray1 a => mret a
  | OColumnView base col => a ← read_array2 base; lift (Numpy.take_col a col)
  | _ => lift (Raise (TypeError "object is not a 1-D array"))
  end.

(** [a[..., [i0, i1, ...]]]: indexing with a list copies. *)
Definition take_cols (a : loc) (idx : list nat) : M loc :=
  rows ← read_array2 a;
  sel ← lift (Numpy.take_cols rows idx);
  alloc (OArray2 sel).

(** [a[..., i]]: indexing with an integer gives a view on [a]. *)
Definition take_col (a : loc) (i : nat) : M loc :=
  rows ← read_array2 a;
  _ ← lift (Numpy.take_col rows i);
  alloc (OColumnView a i).

(** [softmax(x, axis=-1)]: the result is a new array, [x] is only read. *)
Definition softmax_rows (x : loc) : M loc :=
  rows ← read_array2 x;
  probs ← lift (Numpy.softmax_rows rows);
  alloc (OArray2 probs).

Definition softmax (x : loc) : M loc :=
  entries ← read_array1 x;
  probs ← lift (Numpy.softmax entries);
  alloc (OArray1 probs).

(** [list(reversed(scores.argsort()))]: [argsort] returns a new array,
    [list] a new list. *)
Definition reversed_argsort (scores : loc) : M loc :=
  entries ← read_array1 scores;
  order ← alloc (OIndices (Numpy.argsort entries));
  order ← read_indices order;
  alloc (OIndices (reverse order)).

(** Lines 78-83: the array [scores]. *)
Definition label_scores (self : ZeroShotClassificationPipeline)
    (logits candidate_labels : loc) (multi_label : bool) : M loc :=
  independent ←
    (if multi_label then mret true
     else xs ← read_str_list candidate_labels;
          mret (bool_decide (length xs = 1)));
  if independent : bool then
    logits ← take_cols logits [contradiction_id self; entailment_id self];
    probs ← softmax_rows logits;
    take_col probs 1
  else
    logits ← take_col logits (entailment_id self);
    softmax logits.

(** Lines 84-89: the ranked result. *)
Definition rank (candidate_labels scores : loc) : M loc :=
  reversed_index ← reversed_argsort scores;
  index ← read_indices reversed_index;
  xs ← read_str_list candidate_labels;
  out_labels ← lift (traverse (getitem xs) index);
  out_labels ← alloc (OStrList out_labels);
  entries ← read_array1 scores;
  out_scores ← lift (traverse (getitem entries) index);
  out_scores ← alloc (OFloatList out_scores);
  alloc (ODict (<[OutputKeys.LABELS := out_labels]>
                  {[OutputKeys.SCORES := out_scores]})).

Definition postprocess (self : ZeroShotClassificationPipeline)
    (inputs candidate_labels : loc) (multi_label : bool) : M loc :=
  d ← read_dict inputs;
  logits ← lift (dict_getitem d "logits");
  scores ← label_scores self logits candidate_labels multi_label;
  rank candidate_labels scores.

(** The outcome of [m] started in [h] satisfies [Q]. *)
Definition wp {A} (m : M A) (Q : result A → heap → Prop) (h : heap) : Prop :=
  Q (m h).1 (m h).2.

(** [m] changes no object that exists when it starts: whatever it does,
    it leaves a store that extends the one it found. *)
Definition preserving {A} (m : M A) : Prop := ∀ h, h ⊆ (m h).2.

(** A 1-D array object [l] with entries [a], in [h] and in every store
    that extends [h]. *)
Definition holds_array1 (h : heap) (l : loc) (a : ndarray1) : Prop :=
  ∀ h', h ⊆ h' → read_array1 l h' = (Ok a, h').

(** Computing [scores] on objects, from store [h0] to store [h] with
    outcome [r], against the outcome [p] of computing it on values: the
    same exception, or a reference to an array holding the same
    entries. *)
Definition scores_agree (h0 : heap) (p : result ndarray1)
    (r : result loc) (h : heap) : Prop :=
  h0 ⊆ h
  ∧ match p, r with
    | Ok sc, Ok s => holds_array1 h s sc
    | Raise e, Raise e' => e = e'
    | _, _ => False
    end.

(** The outcome [r] of a call on objects, in store [h], is the outcome
    [p] of the same call on values: the same exception, or a reference
    to a dict whose two entries hold the returned labels and scores. *)
Definition represents (h : heap) (r : result loc) (p : result (ranked R))
  : Prop :=
  match p, r with
  | Ok out, Ok res =>
      ∃ out_labels out_scores,
        h !! res = Some (ODict (<[OutputKeys.LABELS := out_labels]>
                                  {[OutputKeys.SCORES := out_scores]}))
        ∧ h !! out_labels = Some (OStrList (labels out))
        ∧ h !! out_scores = Some (OFloatList (scores out))
  | Raise e, Raise e' => e = e'
  | _, _ => False
  end.

End Store.

(** ** The forward stage *)

(** What [forward] can touch besides its arguments: torch's gradient mode
    and the rest of the interpreter's state, which is left abstract. *)
Record world (S : Type) : Type := {
  grad_enabled : bool;
  rest : S
}.
Arguments grad_enabled {S} w.
Arguments rest {S} w.

Section forward.
Context {S Batch Params Output : Type}.
(** [super().forward], the forward execution of the base [Pipeline]; it
    may read and change the state, the gradient mode included. *)
Variable super_forward :
  Batch → Params → world S → result Output * world S.

(** [torch.set_grad_enabled(b)]. *)
Definition set_grad_enabled (b : bool) (w : world S) : world S :=
  {| grad_enabled := b; rest := rest w |}.

(** [with torch.no_grad(): body]: on entry the mode is saved and switched
    off, on exit, by return or by exception, the saved mode is put back. *)
Definition no_grad {A} (body : world S → result A * world S)
  : world S → result A * world S :=
  λ w,
    let prev := grad_enabled w in
    let '(r, w') := body (set_grad_enabled false w) in
    (r, set_grad_enabled prev w').

Definition forward (inputs : Batch) (forward_params : Params)
  : world S → result Output * world S :=
  no_grad (super_forward inputs forward_params).
End forward.

(* ================================================================== *)
(** * Properties *)

(** ** Results and list comprehensions *)

Lemma bind_Ok {A B} (f : A → result B) a : Ok a ≫= f = f a.
Proof. reflexivity. Qed.

Lemma bind_Raise {A B} (f : A → result B) e : Raise e ≫= f = Raise e.
Proof. reflexivity. Qed.

Lemma bind_Ok_inv {A B} (f : A → result B) m b :
  m ≫= f = Ok b → ∃ a, m = Ok a ∧ f a = Ok b.
Proof. destruct m as [a|e]; [eauto|discriminate]. Qed.

Section traverse_facts.
Context {A B : Type} (f : A → result B).

Lemma traverse_cons_Ok x xs y ys :
  f x = Ok y → traverse f xs = Ok ys → traverse f (x :: xs) = Ok (y :: ys).
Proof. intros Hx Hxs. simpl. rewrite Hx. simpl. rewrite Hxs. reflexivity. Qed.

Lemma traverse_cons_inv x xs zs :
  traverse f (x :: xs) = Ok zs →
  ∃ y ys, zs = y :: ys ∧ f x = Ok y ∧ traverse f xs = Ok ys.
Proof.
  simpl. destruct (f x) as [y|e]; simpl; [|discriminate].
  destruct (traverse f xs) as [ys|e]; simpl; [|discriminate].
  intros [= <-]. eauto.
Qed.

Lemma traverse_length xs ys : traverse f xs = Ok ys → length ys = length xs.
Proof.
  revert ys. induction xs as [|x xs IH]; intros ys.
  - intros [= <-]. reflexivity.
  - intros (y & ys' & -> & _ & Hys)%traverse_cons_inv.
    simpl. f_equal. apply IH, Hys.
Qed.

Lemma traverse_fmap (g : A → B) xs :
  Forall (λ x, f x = Ok (g x)) xs → traverse f xs = Ok (g <$> xs).
Proof.
  induction 1 as [|x xs Hx _ IH]; [reflexivity|].
  apply traverse_cons_Ok; assumption.
Qed.

Lemma traverse_app xs1 xs2 ys1 ys2 :
  traverse f xs1 = Ok ys1 → traverse f xs2 = Ok ys2 →
  traverse f (xs1 ++ xs2) = Ok (ys1 ++ ys2).
Proof.
  revert ys1. induction xs1 as [|x xs1 IH]; intros ys1.
  - intros [= <-]. trivial.
  - intros (y & ys & -> & Hx & Hxs)%traverse_cons_inv H2.
    simpl app. apply traverse_cons_Ok; [assumption|]. apply IH; assumption.
Qed.

Lemma traverse_Permutation xs xs' ys :
  xs ≡ₚ xs' → traverse f xs = Ok ys →
  ∃ ys', traverse f xs' = Ok ys' ∧ ys ≡ₚ ys'.
Proof.
  intros Hp. revert ys.
  induction Hp as [|x xs xs' _ IH|x1 x2 xs|xs1 xs2 xs3 _ IH1 _ IH2]; intros ys.
  - intros [= <-]. eauto.
  - intros (y & ys0 & -> & Hx & Hxs)%traverse_cons_inv.
    destruct (IH _ Hxs) as (ys' & Hys' & Hperm).
    exists (y :: ys'). split; [by apply traverse_cons_Ok|by constructor].
  - intros (y2 & ys0 & -> & Hx2 & Hr)%traverse_cons_inv.
    apply traverse_cons_inv in Hr as (y1 & ys1 & -> & Hx1 & Hxs).
    exists (y1 :: y2 :: ys1).
    split; [by repeat apply traverse_cons_Ok|by constructor].
  - intros Hys. destruct (IH1 _ Hys) as (ys2 & H2 & Hp2).
    destruct (IH2 _ H2) as (ys3 & H3 & Hp3).
    exists ys3. split; [assumption|by etrans].
Qed.
End traverse_facts.

Lemma traverse_ext_Forall {A B} (f g : A → result B) xs :
  Forall (λ x, f x = g x) xs → traverse f xs = traverse g xs.
Proof.
  induction 1 as [|x xs Hx _ IH]; [reflexivity|].
  simpl. rewrite Hx, IH. reflexivity.
Qed.

Lemma traverse_getitem_seq {A} (l : list A) :
  traverse (getitem l) (seq 0 (length l)) = Ok l.
Proof.
  induction l as [|x l IH] using rev_ind; [reflexivity|].
  rewrite length_app, Nat.add_comm. simpl length. rewrite seq_S. simpl.
  apply traverse_app.
  - rewrite <- IH. apply traverse_ext_Forall, Forall_forall.
    intros i Hi%elem_of_seq. unfold getitem.
    rewrite lookup_app_l by lia. reflexivity.
  - simpl. unfold getitem. rewrite list_lookup_middle by reflexivity.
    reflexivity.
Qed.

Lemma traverse_getitem_zip {A B} (l : list A) (k : list B) idx a b :
  traverse (getitem l) idx = Ok a → traverse (getitem k) idx = Ok b →
  traverse (getitem (zip l k)) idx = Ok (zip a b).
Proof.
  revert a b. induction idx as [|i idx IH]; intros a b.
  - intros [= <-] [= <-]. reflexivity.
  - intros (x & a' & -> & Hx & Ha)%traverse_cons_inv
           (y & b' & -> & Hy & Hb)%traverse_cons_inv.
    simpl zip. apply traverse_cons_Ok; [|by apply IH].
    unfold getitem in *. rewrite lookup_zip_with.
    destruct (l !! i); [|discriminate]. destruct (k !! i); [|discriminate].
    simpl. congruence.
Qed.

Lemma traverse_reverse {A B} (f : A → result B) xs ys :
  traverse f xs = Ok ys → traverse f (reverse xs) = Ok (reverse ys).
Proof.
  revert ys. induction xs as [|x xs IH]; intros ys.
  - intros [= <-]. reflexivity.
  - intros (y & ys' & -> & Hx & Hxs)%traverse_cons_inv.
    rewrite !reverse_cons. apply traverse_app; [by apply IH|].
    simpl. rewrite Hx. reflexivity.
Qed.


(** ** argsort *)

Module NumpyFacts.
Import Numpy.

#[global] Instance exact_sort_total : Total (s_sort_le (F := R)).
Proof.
  intros x y. cbn. destruct (Rle_or_lt x y); [by left|right].
  by apply Rlt_le.
Qed.

Section argsort.
Context {F : Type} `{Scalar F}.
Implicit Types a : list F.

#[global] Instance key_le_total `{!Total (s_sort_le (F := F))} :
  Total (key_le (F := F)).
Proof. intros p q. unfold key_le. apply total, _. Qed.

Lemma argsort_pairs a : argsort a = (sorted_pairs a).*2.
Proof. reflexivity. Qed.

Lemma argsort_Permutation a : argsort a ≡ₚ seq 0 (length a).
Proof.
  unfold argsort, sorted_pairs. rewrite merge_sort_Permutation.
  rewrite snd_zip; [done|]. by rewrite length_seq.
Qed.

Lemma argsort_length a : length (argsort a) = length a.
Proof. by rewrite argsort_Permutation, length_seq. Qed.

Lemma sorted_pairs_lookup a v i :
  (v, i) ∈ sorted_pairs a → a !! i = Some v.
Proof.
  unfold sorted_pairs. rewrite merge_sort_Permutation.
  intros (k & x & y & [= -> ->] & Hx & Hy)%elem_of_lookup_zip_with.
  apply lookup_seq in Hy as [-> _]. exact Hx.
Qed.

(** Reading [a] at the positions of [argsort a] gives its values in
    ascending order. *)
Lemma traverse_getitem_argsort a :
  traverse (getitem a) (argsort a) = Ok (sorted_pairs a).*1.
Proof.
  rewrite argsort_pairs.
  assert (Hall : Forall (λ p, a !! p.2 = Some p.1) (sorted_pairs a)).
  { apply Forall_forall. intros [v i]. apply sorted_pairs_lookup. }
  induction Hall as [|[v i] ps Hp _ IH]; [reflexivity|].
  rewrite !fmap_cons. apply traverse_cons_Ok; [|exact IH].
  unfold getitem. simpl in *. by rewrite Hp.
Qed.

Lemma sorted_pairs_Sorted `{!Total (s_sort_le (F := F))} a :
  Sorted s_sort_le (sorted_pairs a).*1.
Proof.
  apply (Sorted_fmap fst key_le s_sort_le); [done|].
  apply Sorted_merge_sort; apply _.
Qed.

Lemma sorted_pairs_values a : (sorted_pairs a).*1 ≡ₚ a.
Proof.
  unfold sorted_pairs. rewrite merge_sort_Permutation.
  rewrite fst_zip; [done|]. by rewrite length_seq.
Qed.

End argsort.
End NumpyFacts.

(** ** softmax *)

Module SoftmaxFacts.
Import Numpy.
Local Open Scope R_scope.

Lemma sum_from (a : R) (x : list R) : foldl Rplus a x = a + sum x.
Proof.
  unfold sum. cbn [s_add s_zero exact_reals]. revert a.
  induction x as [|v x IH]; intros a; simpl; [lra|].
  rewrite (IH (a + v)), (IH (0 + v)). lra.
Qed.

Lemma sum_nil : sum ([] : list R) = 0.
Proof. reflexivity. Qed.

Lemma sum_cons v x : sum (v :: x) = v + sum x.
Proof.
  unfold sum at 1. cbn [s_add s_zero exact_reals foldl].
  rewrite sum_from. lra.
Qed.


Lemma sum_fmap_scale (c : R) (g : R → R) x :
  sum ((λ v, g v * c) <$> x) = sum (g <$> x) * c.
Proof.
  induction x as [|v x IH]; [unfold sum; simpl; lra|].
  rewrite !fmap_cons, !sum_cons, IH. lra.
Qed.

Lemma sum_exp_nonneg x : 0 <= sum (exp <$> x).
Proof.
  induction x as [|w x IH]; [unfold sum; simpl; lra|].
  pose proof (exp_pos w). rewrite fmap_cons, sum_cons. lra.
Qed.

Lemma sum_exp_pos x : x ≠ [] → 0 < sum (exp <$> x).
Proof.
  destruct x as [|v x]; [done|intros _].
  rewrite fmap_cons, sum_cons.
  assert (0 <= sum (exp <$> x)).
  { apply sum_exp_nonneg. }
  pose proof (exp_pos v). lra.
Qed.

Lemma exp_shift v m : exp (v - m) = exp v * / exp m.
Proof. unfold Rminus. by rewrite exp_plus, exp_Ropp. Qed.

(** The shift by the maximum cancels: softmax is [exp v / Σ exp]. *)
Lemma softmax_closed x :
  x ≠ [] → softmax x = Ok ((λ v, exp v / sum (exp <$> x)) <$> x).
Proof.
  intros Hx. unfold softmax.
  assert (∃ m, amax x = Ok m) as [m ->] by (destruct x; [done|by eexists]).
  rewrite bind_Ok. f_equal.
  rewrite <- list_fmap_compose. apply list_fmap_ext. intros _ v _. simpl.
  rewrite (list_fmap_ext (λ v, exp (v - m)) (λ v, exp v * / exp m) x)
    by (intros; apply exp_shift).
  rewrite sum_fmap_scale, exp_shift.
  pose proof (exp_pos m). pose proof (sum_exp_pos x Hx).
  field. split; lra.
Qed.

Lemma softmax_length x y : softmax x = Ok y → length y = length x.
Proof.
  destruct (decide (x = [])) as [->|Hx]; [discriminate|].
  rewrite softmax_closed by done. intros [= <-]. by rewrite length_fmap.
Qed.


Lemma softmax_range x y s : softmax x = Ok y → s ∈ y → 0 <= s <= 1.
Proof.
  destruct (decide (x = [])) as [->|Hx]; [discriminate|].
  rewrite softmax_closed by done. intros [= <-].
  intros (v & -> & Hv)%list_elem_of_fmap.
  pose proof (sum_exp_pos x Hx) as Hpos. pose proof (exp_pos v).
  assert (exp v <= sum (exp <$> x)).
  { clear Hx Hpos. induction Hv as [v x|v w x _ IH];
      rewrite fmap_cons, sum_cons.
    - pose proof (sum_exp_nonneg x). lra.
    - pose proof (exp_pos w). lra. }
  split.
  - apply Rlt_le, Rdiv_lt_0_compat; lra.
  - apply (Rmult_le_reg_r (sum (exp <$> x))); [lra|].
    unfold Rdiv. rewrite Rmult_assoc, Rinv_l by lra. lra.
Qed.

Lemma softmax_pair c e :
  softmax [c; e] = Ok [exp c / (exp c + exp e); exp e / (exp c + exp e)].
Proof.
  rewrite softmax_closed by done.
  rewrite !fmap_cons, !fmap_nil, !sum_cons, sum_nil, Rplus_0_r. reflexivity.
Qed.

End SoftmaxFacts.

(** ** The two scoring branches *)

Lemma traverse_compose {A B C} (f : A → result B) (g : B → result C) xs :
  (∀ x y, x ∈ xs → f x = Ok y → ∃ z, g y = Ok z) →
  traverse f xs ≫= traverse g = traverse (λ x, f x ≫= g) xs.
Proof.
  induction xs as [|x xs IH]; intros Hg; [reflexivity|].
  simpl. destruct (f x) as [y|e] eqn:Hy; [|reflexivity].
  rewrite !bind_Ok.
  destruct (Hg x y) as [z Hz]; [left|done|].
  rewrite Hz, bind_Ok. rewrite <- IH by (intros; eapply Hg; [by right|done]).
  destruct (traverse f xs) as [ys|e]; [|reflexivity].
  rewrite !bind_Ok. simpl. rewrite Hz. reflexivity.
Qed.

Section scoring.
Import Numpy.
Context {F : Type} `{Scalar F}.
Variable self : ZeroShotClassificationPipeline.

(** Softmax of a pair is a pair, in every arithmetic. *)
Lemma softmax_two (c e : F) : ∃ p q, softmax [c; e] = Ok [p; q].
Proof. by eexists _, _. Qed.

(** Softmax of a non-empty array returns, with one entry per entry. *)
Lemma softmax_returns (x : list F) :
  x ≠ [] → ∃ y, softmax x = Ok y ∧ length y = length x.
Proof.
  destruct x as [|x0 xs]; [done|intros _].
  eexists. split; [reflexivity|]. by rewrite !length_fmap.
Qed.

(** Lines 79-80 compute, row by row, the score the specification
    describes; this holds for every tensor, also when a row is too short
    (both sides raise [IndexError]). *)
Lemma label_scores_independent (logits : list (list F)) candidate_labels
    multi_label :
  multi_label = true ∨ length candidate_labels = 1 →
  label_scores self logits candidate_labels multi_label
  = traverse (independent_score self) logits.
Proof.
  intros Hbranch. unfold label_scores.
  replace (multi_label || bool_decide (length candidate_labels = 1))
    with true.
  2:{ destruct Hbranch as [->| ->]; [done|]. by rewrite orb_true_r. }
  unfold take_cols, softmax_rows, take_col.
  set (f := λ row : list F,
         traverse (getitem row) [contradiction_id self; entailment_id self]).
  assert (Hf : ∀ row y, f row = Ok y → ∃ c e, y = [c; e]).
  { intros row y. unfold f. simpl.
    destruct (getitem row (contradiction_id self));
      [|rewrite bind_Raise; intros [=]].
    rewrite bind_Ok.
    destruct (getitem row (entailment_id self));
      [|rewrite !bind_Raise; intros [=]].
    rewrite !bind_Ok. intros [= <-]. eauto. }
  trans ((traverse f logits ≫= traverse softmax)
           ≫= traverse (λ row : list F, getitem row 1)).
  { by destruct (traverse f logits). }
  rewrite traverse_compose.
  2:{ intros row y _ (c & e & ->)%Hf.
      destruct (softmax_two c e) as (p & q & ->). eauto. }
  rewrite traverse_compose.
  2:{ intros row y _ (sel & Hsel & Hy)%bind_Ok_inv.
      apply Hf in Hsel as (c & e & ->).
      destruct (softmax_two c e) as (p & q & Hpq). rewrite Hpq in Hy.
      injection Hy as <-. by eexists. }
  apply traverse_ext_Forall, Forall_forall. intros row _.
  unfold f, independent_score. simpl.
  destruct (getitem row (contradiction_id self)); [|reflexivity].
  destruct (getitem row (entailment_id self)); reflexivity.
Qed.

(** Lines 82-83: softmax over the entailment column. *)
Lemma label_scores_exclusive (logits : list (list F)) candidate_labels :
  length candidate_labels ≠ 1 →
  label_scores self logits candidate_labels false
  = take_col logits (entailment_id self) ≫= softmax.
Proof.
  intros Hlen. unfold label_scores.
  rewrite bool_decide_eq_false_2 by done. reflexivity.
Qed.

End scoring.

(** ** Binary64: comparisons and the sort order *)

Module Binary64Facts.

Lemma SFcompare_swap x y :
  SFcompare y x = option_map CompOpp (SFcompare x y).
Proof.
  destruct x as [sx|sx| |sx mx ex], y as [sy|sy| |sy my ey]; simpl;
    try reflexivity;
    try (destruct sx; reflexivity); try (destruct sy; reflexivity);
    try (destruct sx, sy; reflexivity).
  destruct sx, sy; try reflexivity.
  - rewrite (Z.compare_antisym ey ex).
    destruct (ey ?= ex)%Z; simpl; try reflexivity.
    change (Pos.compare_cont Eq my mx) with (my ?= mx)%positive.
    change (Pos.compare_cont Eq mx my) with (mx ?= my)%positive.
    rewrite (Pos.compare_antisym my mx). by destruct (my ?= mx)%positive.
  - rewrite (Z.compare_antisym ey ex).
    destruct (ey ?= ex)%Z; simpl; try reflexivity.
    change (Pos.compare_cont Eq my mx) with (my ?= mx)%positive.
    change (Pos.compare_cont Eq mx my) with (mx ?= my)%positive.
    rewrite (Pos.compare_antisym my mx). by destruct (my ?= mx)%positive.
Qed.

Lemma SFcompare_nan x y : SFcompare x y = None ↔ x = S754_nan ∨ y = S754_nan.
Proof.
  destruct x as [sx|sx| |sx mx ex], y as [sy|sy| |sy my ey]; simpl;
    split; try done; try tauto; intros [|]; done.
Qed.

Lemma SFcompare_self x : x ≠ S754_nan → SFcompare x x = Some Eq.
Proof.
  destruct x as [s|s| |s m e]; simpl; try done.
  - by destruct s.
  - intros _. change (Pos.compare_cont Eq m m) with (m ?= m)%positive.
    destruct s; rewrite Z.compare_refl, Pos.compare_refl; done.
Qed.

Lemma is_nan_spec x : PrimFloat.is_nan x = true ↔ Prim2SF x = S754_nan.
Proof.
  unfold PrimFloat.is_nan. rewrite FloatAxioms.eqb_spec. unfold SFeqb.
  rewrite negb_true_iff. split.
  - destruct (Prim2SF x) as [s|s| |s m e] eqn:Hx; [| |done|].
    + done.
    + by destruct s.
    + rewrite SFcompare_self; done.
  - intros ->. reflexivity.
Qed.


Lemma leb_nan_r x y : PrimFloat.is_nan y = true → PrimFloat.leb x y = false.
Proof.
  intros Hy%is_nan_spec. rewrite leb_spec, Hy. unfold SFleb.
  by destruct (Prim2SF x).
Qed.

Lemma leb_total x y :
  PrimFloat.is_nan x = false → PrimFloat.is_nan y = false →
  PrimFloat.leb x y = true ∨ PrimFloat.leb y x = true.
Proof.
  intros Hx Hy. rewrite !leb_spec. unfold SFleb.
  rewrite (SFcompare_swap (Prim2SF x) (Prim2SF y)).
  destruct (SFcompare (Prim2SF x) (Prim2SF y)) as [[]|] eqn:Hc; simpl; auto.
  apply SFcompare_nan in Hc as [Hc|Hc]; apply is_nan_spec in Hc; congruence.
Qed.

Lemma sort_leb_total x y :
  Binary64.sort_leb x y = true ∨ Binary64.sort_leb y x = true.
Proof.
  unfold Binary64.sort_leb.
  destruct (PrimFloat.is_nan y) eqn:Hy; [by left|].
  destruct (PrimFloat.is_nan x) eqn:Hx; [by right|].
  simpl. by apply leb_total.
Qed.

#[global] Instance sort_total fexp :
  Total (s_sort_le (Scalar := binary64 fexp)).
Proof. intros x y. apply sort_leb_total. Qed.

End Binary64Facts.

(** ** Numbers among the extended reals *)

Module XrealFacts.
Import Numpy SoftmaxFacts.

#[global] Instance sort_total : Total (s_sort_le (F := xreal)).
Proof.
  intros x y. simpl.
  destruct x as [a| | |], y as [b| | |]; simpl; auto.
  destruct (Rle_dec a b); [left|right]; lra.
Qed.












End XrealFacts.

(** ** Construction *)

Lemma init_ids model self :
  __init__ model = Ok self → entailment_id self = 0 ∧ contradiction_id self = 2.
Proof. destruct model; intros [= <-]; done. Qed.

Lemma row_of_three {A} (row : list A) :
  length row = 3 → ∃ x0 x1 x2, row = [x0; x1; x2].
Proof. destruct row as [|x0 [|x1 [|x2 [|??]]]]; try done. eauto. Qed.

(** On a tensor of three logits per row the scores are computed, whatever
    the arithmetic and whatever the logits hold. *)
Section constructed.
Import Numpy.
Context {F : Type} {arith : Scalar F}.
Context (model : model_arg) (self : ZeroShotClassificationPipeline).
Hypothesis Hinit : __init__ model = Ok self.

Lemma independent_score_returns (row : list F) :
  length row = 3 → ∃ s, independent_score self row = Ok s.
Proof.
  intros (x0 & x1 & x2 & ->)%row_of_three.
  destruct (init_ids _ _ Hinit) as [He Hc].
  unfold independent_score. rewrite He, Hc. by eexists.
Qed.

Lemma independent_scores_valid (logits : list (list F)) :
  valid_logits logits →
  ∃ scs, traverse (independent_score self) logits = Ok scs.
Proof.
  induction 1 as [|row logits [s Hs]%independent_score_returns _ [scs IH]].
  - by eexists.
  - eexists. apply traverse_cons_Ok; [exact Hs|exact IH].
Qed.

Lemma entailment_column_valid (logits : list (list F)) :
  valid_logits logits →
  ∃ col, take_col logits (entailment_id self) = Ok col.
Proof.
  destruct (init_ids _ _ Hinit) as [-> _]. unfold take_col.
  induction 1 as [|row logits (x0 & x1 & x2 & ->)%row_of_three _ [col IH]].
  - by eexists.
  - eexists. apply traverse_cons_Ok; [reflexivity|exact IH].
Qed.

(** On a valid tensor the scores are computed, one per row. *)
Lemma label_scores_valid (logits : list (list F)) candidate_labels
    multi_label :
  valid_logits logits → length logits = length candidate_labels →
  candidate_labels ≠ [] →
  ∃ scs, label_scores self logits candidate_labels multi_label = Ok scs
         ∧ length scs = length candidate_labels.
Proof.
  intros Hvalid Hlen Hne.
  destruct (decide (multi_label = true ∨ length candidate_labels = 1))
    as [Hb|Hb].
  - rewrite label_scores_independent by done.
    destruct (independent_scores_valid _ Hvalid) as [scs Hscs].
    exists scs. split; [done|]. apply traverse_length in Hscs. congruence.
  - assert (multi_label = false) as -> by (destruct multi_label; tauto).
    rewrite label_scores_exclusive by tauto.
    destruct (entailment_column_valid _ Hvalid) as [col Hcol].
    rewrite Hcol, bind_Ok. pose proof (traverse_length _ _ _ Hcol) as Hl.
    assert (col ≠ []) as Hcne.
    { intros ->. destruct candidate_labels; [done|]. simpl in *. lia. }
    destruct (softmax_returns col Hcne) as (y & -> & Hy).
    exists y. split; [done|]. congruence.
Qed.

End constructed.

(** In exact arithmetic the score of a row has a closed form. *)
Section constructed_exact.
Import Numpy SoftmaxFacts.
Context (model : model_arg) (self : ZeroShotClassificationPipeline).
Hypothesis Hinit : __init__ model = Ok self.

Lemma independent_score_row (x0 x1 x2 : R) :
  independent_score self [x0; x1; x2] = Ok (exp x0 / (exp x2 + exp x0))%R.
Proof.
  destruct (init_ids _ _ Hinit) as [He Hc].
  unfold independent_score. rewrite He, Hc.
  change (getitem [x0; x1; x2] 2) with (Ok x2).
  change (getitem [x0; x1; x2] 0) with (Ok x0).
  rewrite !bind_Ok, softmax_pair. reflexivity.
Qed.

Lemma independent_score_range (row : list R) s :
  independent_score self row = Ok s → (0 <= s <= 1)%R.
Proof.
  unfold independent_score.
  intros (c & _ & (e & _ & (probs & Hsm & Hs)%bind_Ok_inv)%bind_Ok_inv)
    %bind_Ok_inv.
  apply (softmax_range _ _ _ Hsm). unfold getitem in Hs.
  destruct (probs !! 1) as [s'|] eqn:Hl; [|discriminate].
  injection Hs as ->. by eapply list_elem_of_lookup_2.
Qed.

End constructed_exact.

(** ** Ranking *)

Section ranking.
Import Numpy NumpyFacts.
Context {F : Type} `{Scalar F} `{!Total (s_sort_le (F := F))}.
Context (self : ZeroShotClassificationPipeline)
        (inputs : gmap string (list (list F))) (logits : list (list F))
        (candidate_labels : list string) (multi_label : bool)
        (scs : list F).
Hypothesis Hlogits : inputs !! "logits" = Some logits.
Hypothesis Hscs :
  label_scores self logits candidate_labels multi_label = Ok scs.
Hypothesis Hlen : length scs = length candidate_labels.

(** Lines 84-88: once there is one score per label, the labels and the
    scores come back together, reordered by descending score. *)
Lemma postprocess_ranked :
  ∃ out, postprocess self inputs candidate_labels multi_label = Ok out
    ∧ zip (labels out) (scores out) ≡ₚ zip candidate_labels scs
    ∧ length (labels out) = length candidate_labels
    ∧ length (scores out) = length candidate_labels
    ∧ Sorted (flip s_sort_le) (scores out).
Proof.
  unfold postprocess, dict_getitem. rewrite Hlogits, bind_Ok, Hscs, bind_Ok.
  set (idx := reverse (argsort scs)).
  assert (Hidx : seq 0 (length scs) ≡ₚ idx).
  { unfold idx. by rewrite reverse_Permutation, argsort_Permutation. }
  pose proof (traverse_reverse _ _ _ (traverse_getitem_argsort scs)) as Hsc.
  fold idx in Hsc.
  destruct (traverse_Permutation (getitem candidate_labels) _ _
              candidate_labels Hidx) as (ls & Hls & Hpl).
  { rewrite Hlen. apply traverse_getitem_seq. }
  rewrite Hls, bind_Ok, Hsc, bind_Ok.
  eexists. split; [reflexivity|]. simpl.
  pose proof (traverse_getitem_zip _ _ _ _ _ Hls Hsc) as Hz.
  destruct (traverse_Permutation (getitem (zip candidate_labels scs)) _ _
              (zip candidate_labels scs) Hidx) as (zs & Hzs & Hpz).
  { rewrite <- (traverse_getitem_seq (zip candidate_labels scs)).
    by rewrite length_zip, Hlen, Nat.min_id. }
  rewrite Hz in Hzs. injection Hzs as <-.
  split; [done|]. split; [by rewrite <- Hpl|]. split.
  - by rewrite length_reverse, length_fmap, <- Hlen,
      <- (argsort_length scs), argsort_pairs, length_fmap.
  - apply Sorted_reverse, sorted_pairs_Sorted.
Qed.

End ranking.


Lemma zip_Permutation_fst {A B} (a a' : list A) (b b' : list B) :
  length a = length b → length a' = length b' →
  zip a b ≡ₚ zip a' b' → a ≡ₚ a'.
Proof.
  intros Hl Hl' Hp. rewrite <- (fst_zip a b), <- (fst_zip a' b') by lia.
  by rewrite Hp.
Qed.


(** One label, one row: the ranked result is that label with its
    independent score, whatever [multi_label] says. *)
Lemma postprocess_single_label model self label x0 x1 x2 multi_label :
  __init__ model = Ok self →
  postprocess self {["logits" := [[x0; x1; x2]]]} [label] multi_label
  = Ok {| labels := [label];
          scores := [exp x0 / (exp x2 + exp x0)]%R |}.
Proof.
  intros Hinit.
  assert (Hscs : label_scores self [[x0; x1; x2]] [label] multi_label
                 = Ok [exp x0 / (exp x2 + exp x0)]%R).
  { rewrite label_scores_independent by (by right).
    apply traverse_cons_Ok; [|reflexivity].
    exact (independent_score_row model self Hinit _ _ _). }
  destruct (postprocess_ranked self {["logits" := [[x0; x1; x2]]]}
              [[x0; x1; x2]] [label] multi_label _
              (lookup_singleton_eq _ _) Hscs eq_refl)
    as (out & Hout & Hzip & Hll & Hls & _).
  rewrite Hout. f_equal.
  destruct out as [[|l [|??]] [|s [|??]]]; try discriminate.
  simpl in Hzip. apply Permutation_singleton_r in Hzip.
  by injection Hzip as -> ->.
Qed.

(** The specification's example for the exclusive branch: entailment
    logits 2.0 for "sports" and 0.1 for "politics" rank "sports" first,
    with scores exp 2 / (exp 2 + exp 0.1) and exp 0.1 / (exp 2 + exp 0.1). *)
Example postprocess_sports_politics x1 x2 y1 y2 :
  postprocess {| entailment_id := 0; contradiction_id := 2 |}
    {["logits" := [[2; x1; x2]; [1 / 10; y1; y2]]%R]}
    ["sports"; "politics"] false
  = Ok {| labels := ["sports"; "politics"];
          scores := [exp 2 / (exp 2 + exp (1 / 10));
                     exp (1 / 10) / (exp 2 + exp (1 / 10))]%R |}.
Proof.
  set (self := {| entailment_id := 0; contradiction_id := 2 |}).
  set (logits := [[2; x1; x2]; [1 / 10; y1; y2]]%R).
  set (a := (exp 2 / (exp 2 + exp (1 / 10)))%R).
  set (b := (exp (1 / 10) / (exp 2 + exp (1 / 10)))%R).
  assert (Hscs : label_scores self logits ["sports"; "politics"] false
                 = Ok [a; b]).
  { rewrite label_scores_exclusive by done.
    change (Numpy.take_col logits (entailment_id self))
      with (Ok [2; 1 / 10]%R : result ndarray1).
    rewrite bind_Ok, SoftmaxFacts.softmax_closed by done.
    rewrite !fmap_cons, !fmap_nil, !SoftmaxFacts.sum_cons, SoftmaxFacts.sum_nil.
    unfold a, b. by rewrite Rplus_0_r. }
  destruct (postprocess_ranked self {["logits" := logits]} logits
              ["sports"; "politics"] false _
              (lookup_singleton_eq _ _) Hscs eq_refl)
    as (out & Hout & Hzip & Hll & Hls & Hsorted).
  rewrite Hout. f_equal.
  destruct out as [[|l1 [|l2 [|??]]] [|s1 [|s2 [|??]]]]; try discriminate.
  simpl in Hzip, Hsorted.
  apply Permutation_length_2 in Hzip as [[[= -> ->] [= -> ->]]|[[= -> ->] [= -> ->]]];
    [done|exfalso].
  apply Sorted_inv in Hsorted as [_ Hhd]. apply HdRel_inv in Hhd.
  unfold flip in Hhd.
  assert (Hlt : (exp (1 / 10) < exp 2)%R) by (apply exp_increasing; lra).
  pose proof (exp_pos (1 / 10)) as Hpos.
  apply (Rmult_le_compat_r (exp 2 + exp (1 / 10))%R) in Hhd; [|lra].
  unfold a, b, Rdiv in Hhd. rewrite !Rmult_assoc, !Rinv_l in Hhd by lra. lra.
Qed.

(** ** The claims about [postprocess] *)

(** C3. For a non-empty [candidate_labels] and a logits tensor with one row
    of three logits per label, [postprocess] returns; its labels and its
    scores both have [len(candidate_labels)] entries, and its labels are a
    permutation of [candidate_labels]. *)
Theorem postprocess_labels_permutation
    model self (inputs : gmap string ndarray2) logits
    (candidate_labels : list string) multi_label :
  __init__ model = Ok self →
  inputs !! "logits" = Some logits →
  candidate_labels ≠ [] →
  valid_logits logits →
  length logits = length candidate_labels →
  ∃ out, postprocess self inputs candidate_labels multi_label = Ok out
    ∧ length (labels out) = length candidate_labels
    ∧ length (scores out) = length candidate_labels
    ∧ labels out ≡ₚ candidate_labels.
Proof.
  intros Hinit Hlogits Hne Hvalid Hrows.
  destruct (label_scores_valid model self Hinit logits candidate_labels
              multi_label Hvalid Hrows Hne) as (scs & Hscs & Hlen).
  destruct (postprocess_ranked self inputs logits candidate_labels
              multi_label scs Hlogits Hscs Hlen)
    as (out & Hout & Hzip & Hll & Hls & _).
  exists out. repeat split; try done.
  eapply zip_Permutation_fst; [| |exact Hzip]; congruence.
Qed.

Lemma postprocess_labels_permutation_witness :
  ∃ out, postprocess {| entailment_id := 0; contradiction_id := 2 |}
           {["logits" := [[2; 0; 1]; [1; 0; 3]]%R]}
           ["sports"; "politics"] false = Ok out
    ∧ length (labels out) = 2
    ∧ length (scores out) = 2
    ∧ labels out ≡ₚ ["sports"; "politics"].
Proof.
  apply (postprocess_labels_permutation ModelInstance _ _
           [[2; 0; 1]; [1; 0; 3]]%R).
  - reflexivity.
  - apply lookup_singleton_eq.
  - discriminate.
  - repeat constructor.
  - reflexivity.
Defined.

(** The claims below are about the values of the scores, and these are
    computed in binary64.  What fails there is shown on binary64, for every
    exponential that is exact at the arguments the example reaches
    ([exp 0 = 1], [exp (-inf) = 0], [exp NaN = NaN]). *)

(** C4 as claimed fails: a NaN logit gives its label a NaN score, [argsort]
    puts NaN last, so the reversed order puts it first, and
    [nan >= 0.5] is false. *)
Lemma postprocess_scores_descending_counterexample :
  (∀ fexp : float → float, fexp 0%float = 1%float → fexp nan = nan →
     postprocess (arith := binary64 fexp)
       {| entailment_id := 0; contradiction_id := 2 |}
       {["logits" := [[0; 0; 0]; [nan; 0; 0]]%float]} ["a"; "b"] true
     = Ok {| labels := ["b"; "a"]; scores := [nan; 0.5]%float |})
  ∧ PrimFloat.leb 0.5%float nan = false.
Proof.
  split; [|reflexivity]. intros fexp H0 Hn.
  unfold postprocess, dict_getitem. rewrite lookup_singleton_eq, bind_Ok.
  assert (Hs : label_scores (arith := binary64 fexp)
                 {| entailment_id := 0; contradiction_id := 2 |}
                 [[0; 0; 0]; [nan; 0; 0]]%float ["a"; "b"] true
               = Ok [0.5; nan]%float).
  { cbv in Hn |- *. rewrite H0, Hn. reflexivity. }
  rewrite Hs, bind_Ok. vm_compute. reflexivity.
Qed.



(** C5 as claimed fails in its range clause: with a NaN logit, or with the
    two logits both infinite, the score of the label is NaN, and neither
    [0 <= nan] nor [nan <= 1] holds. *)
Lemma postprocess_independent_scoring_counterexample :
  (∀ fexp : float → float, fexp nan = nan →
     postprocess (arith := binary64 fexp)
       {| entailment_id := 0; contradiction_id := 2 |}
       {["logits" := [[nan; 0; 0]]%float]} ["urgent"] false
     = Ok {| labels := ["urgent"]; scores := [nan] |}
     ∧ postprocess (arith := binary64 fexp)
         {| entailment_id := 0; contradiction_id := 2 |}
         {["logits" := [[infinity; 0; infinity]]%float]} ["urgent"] false
       = Ok {| labels := ["urgent"]; scores := [nan] |})
  ∧ PrimFloat.leb 0%float nan = false
  ∧ PrimFloat.leb nan 1%float = false.
Proof.
  split; [|split; reflexivity]. intros fexp Hn.
  unfold postprocess, dict_getitem. rewrite !lookup_singleton_eq, !bind_Ok.
  assert (Hs1 : label_scores (arith := binary64 fexp)
                  {| entailment_id := 0; contradiction_id := 2 |}
                  [[nan; 0; 0]]%float ["urgent"] false = Ok [nan]).
  { cbv in Hn |- *. rewrite Hn. reflexivity. }
  assert (Hs2 : label_scores (arith := binary64 fexp)
                  {| entailment_id := 0; contradiction_id := 2 |}
                  [[infinity; 0; infinity]]%float ["urgent"] false
                = Ok [nan]).
  { cbv in Hn |- *. rewrite Hn. reflexivity. }
  rewrite Hs1, Hs2, !bind_Ok. split; vm_compute; reflexivity.
Qed.



(** C6 as claimed fails in binary64 on ordinary logits: six labels with
    equal entailment logits get the score [1 / 6] each, rounded to binary64
    ([6004799503160661 * 2^-55]).  Added from left to right, as [np.sum]
    does for fewer than eight entries, the six scores give
    [0.9999999999999999] ([0x1.fffffffffffffp-1]); added exactly they give
    [1 - 2^-54]. *)
Lemma postprocess_exclusive_scoring_counterexample :
  (∀ fexp : float → float, fexp 0%float = 1%float →
     ∃ out,
       postprocess (arith := binary64 fexp)
         {| entailment_id := 0; contradiction_id := 2 |}
         {["logits" := [[0; 0; 0]; [0; 0; 0]; [0; 0; 0];
                        [0; 0; 0]; [0; 0; 0]; [0; 0; 0]]%float]}
         ["a"; "b"; "c"; "d"; "e"; "f"] false = Ok out
       ∧ scores out = [1 / 6; 1 / 6; 1 / 6; 1 / 6; 1 / 6; 1 / 6]%float
       ∧ Numpy.sum (arith := binary64 fexp) (scores out)
         = 0x1.fffffffffffffp-1%float)
  ∧ PrimFloat.eqb 0x1.fffffffffffffp-1%float 1%float = false
  ∧ Prim2SF (1 / 6)%float = S754_finite false 6004799503160661 (-55)
  ∧ (6 * 6004799503160661 = 2 ^ 55 - 2)%Z.
Proof.
  split; [|repeat split; vm_compute; reflexivity]. intros fexp H0.
  unfold postprocess, dict_getitem. rewrite !lookup_singleton_eq, !bind_Ok.
  assert (Hs : label_scores (arith := binary64 fexp)
                 {| entailment_id := 0; contradiction_id := 2 |}
                 [[0; 0; 0]; [0; 0; 0]; [0; 0; 0];
                  [0; 0; 0]; [0; 0; 0]; [0; 0; 0]]%float
                 ["a"; "b"; "c"; "d"; "e"; "f"] false
               = Ok [1 / 6; 1 / 6; 1 / 6; 1 / 6; 1 / 6; 1 / 6]%float).
  { cbv. rewrite H0. reflexivity. }
  rewrite Hs, !bind_Ok. eexists. split; [vm_compute; reflexivity|].
  split; vm_compute; reflexivity.
Qed.



(** C7 as claimed fails in its range clause: an infinite entailment logit
    gives its label the score NaN, which is not in [0, 1]; the other label
    keeps its score 0.5. *)
Lemma multi_label_scores_row_local_counterexample :
  (∀ fexp : float → float,
     fexp 0%float = 1%float → fexp neg_infinity = 0%float → fexp nan = nan →
     postprocess (arith := binary64 fexp)
       {| entailment_id := 0; contradiction_id := 2 |}
       {["logits" := [[0; 0; 0]; [infinity; 0; 0]]%float]}
       ["sports"; "politics"] true
     = Ok {| labels := ["politics"; "sports"]; scores := [nan; 0.5]%float |})
  ∧ PrimFloat.leb 0%float nan = false
  ∧ PrimFloat.leb nan 1%float = false.
Proof.
  split; [|split; reflexivity]. intros fexp H0 Hi Hn.
  unfold postprocess, dict_getitem. rewrite lookup_singleton_eq, bind_Ok.
  assert (Hs : label_scores (arith := binary64 fexp)
                 {| entailment_id := 0; contradiction_id := 2 |}
                 [[0; 0; 0]; [infinity; 0; 0]]%float
                 ["sports"; "politics"] true
               = Ok [0.5; nan]%float).
  { cbv in Hi, Hn |- *. rewrite H0, Hi, Hn. reflexivity. }
  rewrite Hs, bind_Ok. vm_compute. reflexivity.
Qed.



(** ** Construction and the class indices *)

(** C1 as stated (entailment index 2, contradiction index 0) fails: the
    constructed pipeline holds entailment index 0 and contradiction index
    2.  For the single label "urgent" with logits row [1/2, 0, 3/2] the
    score is exp(1/2) / (exp(3/2) + exp(1/2)), below one half, where
    reading entailment from column 2 would give
    exp(3/2) / (exp(1/2) + exp(3/2)), above one half. *)
Lemma init_class_indices_counterexample :
  ∃ self out,
    __init__ ModelInstance = Ok self
    ∧ ¬ (entailment_id self = 2 ∧ contradiction_id self = 0)
    ∧ postprocess self {["logits" := [[1 / 2; 0; 3 / 2]%R]]} ["urgent"] false
      = Ok out
    ∧ labels out = ["urgent"]
    ∧ scores out = [exp (1 / 2) / (exp (3 / 2) + exp (1 / 2))]%R
    ∧ scores out ≠ [exp (3 / 2) / (exp (1 / 2) + exp (3 / 2))]%R.
Proof.
  set (self := {| entailment_id := 0; contradiction_id := 2 |}).
  assert (Hinit : __init__ ModelInstance = Ok self) by reflexivity.
  eexists self, _. split; [exact Hinit|]. split; [by intros [? _]|].
  split.
  { exact (postprocess_single_label ModelInstance self "urgent"
             (1 / 2) 0 (3 / 2) false Hinit). }
  repeat split. simpl. intros [= Heq].
  assert (Hlt : (exp (1 / 2) < exp (3 / 2))%R) by (apply exp_increasing; lra).
  pose proof (exp_pos (1 / 2)) as Hpos.
  apply (f_equal (λ x, x * (exp (3 / 2) + exp (1 / 2)))%R) in Heq.
  replace (exp (1 / 2) + exp (3 / 2))%R
    with (exp (3 / 2) + exp (1 / 2))%R in Heq by lra.
  unfold Rdiv in Heq. rewrite !Rmult_assoc, Rinv_l in Heq by lra. lra.
Qed.

(** C1, amended.  At construction the pipeline fixes the entailment class
    index to 0 and the contradiction class index to 2; [postprocess] reads
    each label's entailment logit from column 0 and, in the independent
    branch, its contradiction logit from column 2. *)
Theorem init_class_indices model self :
  __init__ model = Ok self →
  entailment_id self = 0 ∧ contradiction_id self = 2
  ∧ (∀ logits candidate_labels multi_label,
       label_scores self logits candidate_labels multi_label
       = if multi_label || bool_decide (length candidate_labels = 1)
         then traverse (independent_score self) logits
         else Numpy.take_col logits 0 ≫= Numpy.softmax)
  ∧ (∀ x0 x1 x2,
       independent_score self [x0; x1; x2]
       = Ok (exp x0 / (exp x2 + exp x0))%R).
Proof.
  intros Hinit. destruct (init_ids _ _ Hinit) as [He Hc].
  repeat split; try done.
  - intros logits candidate_labels multi_label.
    destruct (multi_label || bool_decide (length candidate_labels = 1))
      eqn:Hb.
    + apply label_scores_independent.
      apply orb_true_iff in Hb as [?|?%bool_decide_eq_true]; auto.
    + apply orb_false_iff in Hb as [-> ?%bool_decide_eq_false].
      rewrite label_scores_exclusive, He by done. reflexivity.
  - apply (independent_score_row model self Hinit).
Qed.

Lemma init_class_indices_witness :
  let self := {| entailment_id := 0; contradiction_id := 2 |} in
  entailment_id self = 0 ∧ contradiction_id self = 2
  ∧ (∀ logits candidate_labels multi_label,
       label_scores self logits candidate_labels multi_label
       = if multi_label || bool_decide (length candidate_labels = 1)
         then traverse (independent_score self) logits
         else Numpy.take_col logits 0 ≫= Numpy.softmax)
  ∧ (∀ x0 x1 x2,
       independent_score self [x0; x1; x2]
       = Ok (exp x0 / (exp x2 + exp x0))%R).
Proof. apply (init_class_indices (ModelId "zero-shot")). reflexivity. Defined.

(** ** Parameter sanitization *)

Section sanitize_facts.
Import Sanitize.

Lemma pop_default_lookup k d (kwargs : gmap string pyval) :
  (pop_default k d kwargs).1 = default d (kwargs !! k).
Proof. unfold pop_default. by destruct (kwargs !! k). Qed.

Lemma pop_default_other k d (kwargs : gmap string pyval) k' :
  k' ≠ k → (pop_default k d kwargs).2 !! k' = kwargs !! k'.
Proof.
  intros Hk. unfold pop_default. destruct (kwargs !! k); [|done].
  simpl. by rewrite lookup_delete_ne.
Qed.

(** With [candidate_labels] present the three parameter sets are
    determined by the keyword arguments. *)
Lemma sanitize_present kwargs candidate_labels :
  kwargs !! "candidate_labels" = Some candidate_labels →
  _sanitize_parameters kwargs
  = Ok (<["hypothesis_template" :=
            default (PyStr "{}") (kwargs !! "hypothesis_template")]>
          {["candidate_labels" := candidate_labels]},
        ∅,
        <["multi_label" := default (PyBool false) (kwargs !! "multi_label")]>
          {["candidate_labels" := candidate_labels]}).
Proof.
  intros Hcl. unfold _sanitize_parameters.
  rewrite bool_decide_eq_true_2 by (by rewrite Hcl).
  unfold pop. rewrite Hcl, !bind_Ok.
  set (kw1 := delete "candidate_labels" kwargs).
  pose proof (pop_default_lookup "hypothesis_template" (PyStr "{}") kw1)
    as Hht.
  pose proof (pop_default_other "hypothesis_template" (PyStr "{}") kw1
                "multi_label") as Hml1.
  destruct (pop_default "hypothesis_template" (PyStr "{}") kw1)
    as [ht kw2].
  pose proof (pop_default_lookup "multi_label" (PyBool false) kw2) as Hml.
  destruct (pop_default "multi_label" (PyBool false) kw2) as [ml kw3].
  simpl in *. subst ht ml. rewrite Hml1 by done. unfold kw1.
  rewrite !lookup_delete_ne by done. reflexivity.
Qed.

Lemma sanitize_absent kwargs :
  kwargs !! "candidate_labels" = None →
  _sanitize_parameters kwargs = Raise (ValueError missing_label_msg).
Proof.
  intros Hcl. unfold _sanitize_parameters.
  rewrite bool_decide_eq_false_2; [done|].
  rewrite Hcl. by intros [? ?].
Qed.

End sanitize_facts.

(** C2. Without the [candidate_labels] keyword, [_sanitize_parameters]
    raises a [ValueError] whose message contains "must include at least one
    label"; a pipeline call with these keyword arguments ends with that
    error before any stage (preprocess, forward, postprocess) is entered. *)
Theorem sanitize_requires_candidate_labels (kwargs : gmap string pyval) :
  kwargs !! "candidate_labels" = None →
  Sanitize._sanitize_parameters kwargs
  = Raise (ValueError Sanitize.missing_label_msg)
  ∧ Sanitize.missing_label_msg
    = "You " +:+ "must include at least one label" +:+ "."
  ∧ ∀ (Input Batch Output Value : Type)
      (preprocess : Input → gmap string pyval → result Batch)
      (forward : Batch → gmap string pyval → result Output)
      (postprocess : Output → gmap string pyval → result Value)
      (input : Input),
      pipeline_call preprocess forward postprocess input kwargs
      = ([], Raise (ValueError Sanitize.missing_label_msg)).
Proof.
  intros Hcl. pose proof (sanitize_absent kwargs Hcl) as Hraise.
  repeat split; [done|].
  intros. unfold pipeline_call. by rewrite Hraise.
Qed.

Lemma sanitize_requires_candidate_labels_witness :
  let kwargs : gmap string pyval := {["multi_label" := PyBool true]} in
  Sanitize._sanitize_parameters kwargs
  = Raise (ValueError Sanitize.missing_label_msg)
  ∧ Sanitize.missing_label_msg
    = "You " +:+ "must include at least one label" +:+ "."
  ∧ ∀ (Input Batch Output Value : Type)
      (preprocess : Input → gmap string pyval → result Batch)
      (forward : Batch → gmap string pyval → result Output)
      (postprocess : Output → gmap string pyval → result Value)
      (input : Input),
      pipeline_call preprocess forward postprocess input kwargs
      = ([], Raise (ValueError Sanitize.missing_label_msg)).
Proof.
  apply (sanitize_requires_candidate_labels {["multi_label" := PyBool true]}).
  apply lookup_singleton_ne. discriminate.
Defined.

(** C8. When [candidate_labels] is supplied, it goes to the preprocess and
    to the postprocess parameter set; [hypothesis_template], "{}" when
    absent, goes to the preprocess set only; [multi_label], false when
    absent, goes to the postprocess set only; and the forward parameter
    set is empty.  Whenever [_sanitize_parameters] returns, the forward set
    is empty. *)
Theorem sanitize_routing (kwargs : gmap string pyval) candidate_labels :
  kwargs !! "candidate_labels" = Some candidate_labels →
  (∃ preprocess_params postprocess_params,
     Sanitize._sanitize_parameters kwargs
     = Ok (preprocess_params, ∅, postprocess_params)
     ∧ preprocess_params
       = <["hypothesis_template" :=
             default (PyStr "{}") (kwargs !! "hypothesis_template")]>
           {["candidate_labels" := candidate_labels]}
     ∧ postprocess_params
       = <["multi_label" := default (PyBool false) (kwargs !! "multi_label")]>
           {["candidate_labels" := candidate_labels]}
     ∧ preprocess_params !! "multi_label" = None
     ∧ postprocess_params !! "hypothesis_template" = None)
  ∧ (∀ kwargs' pre fwd post,
       Sanitize._sanitize_parameters kwargs' = Ok (pre, fwd, post) → fwd = ∅).
Proof.
  intros Hcl. split.
  - eexists _, _. split; [by apply sanitize_present|].
    repeat split; reflexivity.
  - intros kwargs' pre fwd post.
    destruct (kwargs' !! "candidate_labels") as [cl|] eqn:Hcl'.
    + rewrite (sanitize_present _ _ Hcl'). by intros [= _ <- _].
    + by rewrite (sanitize_absent _ Hcl').
Qed.

Lemma sanitize_routing_witness :
  let kwargs : gmap string pyval :=
    {["candidate_labels" := PyList [PyStr "sports"; PyStr "politics"]]} in
  (∃ preprocess_params postprocess_params,
     Sanitize._sanitize_parameters kwargs
     = Ok (preprocess_params, ∅, postprocess_params)
     ∧ preprocess_params
       = <["hypothesis_template" :=
             default (PyStr "{}") (kwargs !! "hypothesis_template")]>
           {["candidate_labels" :=
               PyList [PyStr "sports"; PyStr "politics"]]}
     ∧ postprocess_params
       = <["multi_label" := default (PyBool false) (kwargs !! "multi_label")]>
           {["candidate_labels" :=
               PyList [PyStr "sports"; PyStr "politics"]]}
     ∧ preprocess_params !! "multi_label" = None
     ∧ postprocess_params !! "hypothesis_template" = None)
  ∧ (∀ kwargs' pre fwd post,
       Sanitize._sanitize_parameters kwargs' = Ok (pre, fwd, post) → fwd = ∅).
Proof.
  apply (sanitize_routing
           {["candidate_labels" := PyList [PyStr "sports"; PyStr "politics"]]}).
  apply lookup_singleton_eq.
Defined.

(** ** Empty candidate labels *)

(** C9 as stated fails: with the default [multi_label = False], an empty
    [candidate_labels] and a logits tensor without rows, [postprocess]
    raises (the maximum inside softmax has nothing to reduce). *)
Lemma postprocess_empty_counterexample :
  postprocess {| entailment_id := 0; contradiction_id := 2 |}
    {["logits" := []]} [] false
  = Raise (ValueError
      "zero-size array to reduction operation maximum which has no identity").
Proof.
  unfold postprocess, dict_getitem. rewrite lookup_singleton_eq.
  reflexivity.
Qed.

(** C9, amended.  An empty [candidate_labels] passes
    [_sanitize_parameters], which only looks for the key.  On an empty
    [candidate_labels] and a logits tensor without rows, [postprocess]
    returns empty labels and scores when [multi_label] is true, and raises
    a [ValueError] when [multi_label] is false. *)
Theorem empty_candidate_labels
    model self (kwargs : gmap string pyval) (inputs : gmap string ndarray2) :
  __init__ model = Ok self →
  kwargs !! "candidate_labels" = Some (PyList []) →
  inputs !! "logits" = Some [] →
  (∃ preprocess_params postprocess_params,
     Sanitize._sanitize_parameters kwargs
     = Ok (preprocess_params, ∅, postprocess_params)
     ∧ preprocess_params !! "candidate_labels" = Some (PyList [])
     ∧ postprocess_params !! "candidate_labels" = Some (PyList []))
  ∧ postprocess self inputs [] true = Ok {| labels := []; scores := [] |}
  ∧ postprocess self inputs [] false
    = Raise (ValueError
        "zero-size array to reduction operation maximum which has no identity").
Proof.
  intros _ Hcl Hlogits. split; [|split].
  - eexists _, _. split; [by apply sanitize_present|].
    split; by rewrite lookup_insert_ne, lookup_singleton_eq.
  - unfold postprocess, dict_getitem. by rewrite Hlogits.
  - unfold postprocess, dict_getitem. by rewrite Hlogits.
Qed.

Lemma empty_candidate_labels_witness :
  let self := {| entailment_id := 0; contradiction_id := 2 |} in
  let kwargs : gmap string pyval := {["candidate_labels" := PyList []]} in
  let inputs : gmap string ndarray2 := {["logits" := []]} in
  (∃ preprocess_params postprocess_params,
     Sanitize._sanitize_parameters kwargs
     = Ok (preprocess_params, ∅, postprocess_params)
     ∧ preprocess_params !! "candidate_labels" = Some (PyList [])
     ∧ postprocess_params !! "candidate_labels" = Some (PyList []))
  ∧ postprocess self inputs [] true = Ok {| labels := []; scores := [] |}
  ∧ postprocess self inputs [] false
    = Raise (ValueError
        "zero-size array to reduction operation maximum which has no identity").
Proof.
  apply (empty_candidate_labels ModelInstance
           {| entailment_id := 0; contradiction_id := 2 |}
           {["candidate_labels" := PyList []]} {["logits" := []]}).
  - reflexivity.
  - apply lookup_singleton_eq.
  - apply lookup_singleton_eq.
Defined.

(** ** The store is only extended *)

Module StoreFacts.
Import Store.

Lemma bind_run {A B} (m : M A) (f : A → M B) h :
  (m ≫= f) h = match m h with
               | (Ok a, h') => f a h'
               | (Raise e, h') => (Raise e, h')
               end.
Proof. reflexivity. Qed.

Lemma alloc_run o h :
  alloc o h = (Ok (fresh (dom h)), <[fresh (dom h) := o]> h).
Proof. reflexivity. Qed.

Lemma fresh_unused (h : heap) : h !! fresh (dom h) = None.
Proof. apply not_elem_of_dom, is_fresh. Qed.

Lemma preserving_ret {A} (a : A) : preserving (mret a : M A).
Proof. intros h. reflexivity. Qed.

Lemma preserving_lift {A} (r : result A) : preserving (lift r).
Proof. intros h. reflexivity. Qed.

Lemma preserving_read l : preserving (read l).
Proof. intros h. unfold read. by destruct (h !! l). Qed.

Lemma preserving_alloc o : preserving (alloc o).
Proof. intros h. rewrite alloc_run. apply insert_subseteq, fresh_unused. Qed.

Lemma preserving_bind {A B} (m : M A) (f : A → M B) :
  preserving m → (∀ a, preserving (f a)) → preserving (m ≫= f).
Proof.
  intros Hm Hf h. rewrite bind_run. specialize (Hm h).
  destruct (m h) as [[a|e] h1]; simpl in *; [|done].
  etrans; [exact Hm|apply Hf].
Qed.

Create HintDb preserving.
#[local] Hint Resolve preserving_ret preserving_lift preserving_read
  preserving_alloc : preserving.

Ltac solve_preserving :=
  repeat first
    [ solve [auto 1 with preserving]
    | apply preserving_bind; [|intros ?]
    | match goal with
      | |- preserving (match ?o with _ => _ end) => destruct o
      | |- preserving (if ?b then _ else _) => destruct b
      end ].

Lemma preserving_read_dict l : preserving (read_dict l).
Proof. unfold read_dict. solve_preserving. Qed.

Lemma preserving_read_str_list l : preserving (read_str_list l).
Proof. unfold read_str_list. solve_preserving. Qed.

Lemma preserving_read_indices l : preserving (read_indices l).
Proof. unfold read_indices. solve_preserving. Qed.

Lemma preserving_read_array2 l : preserving (read_array2 l).
Proof. unfold read_array2. solve_preserving. Qed.

#[local] Hint Resolve preserving_read_dict preserving_read_str_list
  preserving_read_indices preserving_read_array2 : preserving.

Lemma preserving_read_array1 l : preserving (read_array1 l).
Proof. unfold read_array1. solve_preserving. Qed.

#[local] Hint Resolve preserving_read_array1 : preserving.

Lemma preserving_take_cols a idx : preserving (take_cols a idx).
Proof. unfold take_cols. solve_preserving. Qed.

Lemma preserving_take_col a i : preserving (take_col a i).
Proof. unfold take_col. solve_preserving. Qed.

Lemma preserving_softmax_rows x : preserving (softmax_rows x).
Proof. unfold softmax_rows. solve_preserving. Qed.

Lemma preserving_softmax x : preserving (softmax x).
Proof. unfold softmax. solve_preserving. Qed.

Lemma preserving_reversed_argsort x : preserving (reversed_argsort x).
Proof. unfold reversed_argsort. solve_preserving. Qed.

#[local] Hint Resolve preserving_take_cols preserving_take_col
  preserving_softmax_rows preserving_softmax preserving_reversed_argsort
  : preserving.

Lemma preserving_label_scores self logits candidate_labels multi_label :
  preserving (label_scores self logits candidate_labels multi_label).
Proof. unfold label_scores. solve_preserving. Qed.

#[local] Hint Resolve preserving_label_scores : preserving.

Lemma wp_bind_preserving {A B} (m : M A) (f : A → M B) Q h :
  preserving m →
  (∀ a h', h ⊆ h' → wp (f a) Q h') →
  (∀ e h', h ⊆ h' → Q (Raise e) h') →
  wp (m ≫= f) Q h.
Proof.
  intros Hm Hok Hraise. unfold wp. rewrite bind_run. specialize (Hm h).
  destruct (m h) as [[a|e] h1]; simpl in *; [by apply Hok|by apply Hraise].
Qed.

Lemma wp_bind_alloc {B} o (f : loc → M B) Q h :
  (∀ l, h !! l = None → wp (f l) Q (<[l := o]> h)) → wp (alloc o ≫= f) Q h.
Proof.
  intros Hf. unfold wp. rewrite bind_run, alloc_run.
  apply Hf, fresh_unused.
Qed.

Lemma wp_alloc o Q h :
  (∀ l, h !! l = None → Q (Ok l) (<[l := o]> h)) → wp (alloc o) Q h.
Proof. intros HQ. unfold wp. rewrite alloc_run. apply HQ, fresh_unused. Qed.

(** Stepping over a command that only extends the store; [Hcur] says
    that the store of the caller is part of the current one. *)
Ltac frame_step a hn Hcur Hnew :=
  apply wp_bind_preserving;
  [ solve_preserving
  | let Hn := fresh "Hstep" in
    intros a hn Hn; pose proof (transitivity Hcur Hn) as Hnew
  | let Hn := fresh "Hn" in
    intros ? ? Hn; split; [by etrans|done] ].

(** What the caller finds after lines 84-89: the objects that existed at
    the call (store [h0]) are as they were, and a returned reference
    leads to a new dict whose two entries are new lists. *)
Lemma rank_outcome h0 candidate_labels scores h :
  h0 ⊆ h →
  wp (rank candidate_labels scores)
     (λ r h',
        h0 ⊆ h'
        ∧ ∀ res, r = Ok res →
            ∃ out_labels out_scores xs ss,
              h' !! res = Some (ODict (<[OutputKeys.LABELS := out_labels]>
                                         {[OutputKeys.SCORES := out_scores]}))
              ∧ h' !! out_labels = Some (OStrList xs)
              ∧ h' !! out_scores = Some (OFloatList ss)
              ∧ h0 !! res = None
              ∧ h0 !! out_labels = None
              ∧ h0 !! out_scores = None) h.
Proof.
  intros H0. unfold rank.
  frame_step reversed_index h1 H0 H1.
  frame_step index h2 H1 H2.
  frame_step xs h3 H2 H3.
  frame_step out_xs h4 H3 H4.
  apply wp_bind_alloc. intros ll Hll.
  assert (Hll4 : h4 ⊆ <[ll := OStrList out_xs]> h4)
    by (by apply insert_subseteq).
  pose proof (transitivity H4 Hll4) as H4'.
  frame_step entries h5 H4' H5.
  frame_step out_ss h6 H5 H6.
  apply wp_bind_alloc. intros sl Hsl.
  apply wp_alloc. intros res Hres.
  assert (Hsl6 : h6 ⊆ <[sl := OFloatList out_ss]> h6)
    by (by apply insert_subseteq).
  assert (Hlabels : h6 !! ll = Some (OStrList out_xs)).
  { eapply lookup_weaken; [apply lookup_insert_eq|]. by etrans. }
  split.
  - etrans; [exact H6|]. etrans; [exact Hsl6|]. by apply insert_subseteq.
  - intros ? [= <-]. exists ll, sl, out_xs, out_ss.
    assert (res ≠ sl) by (intros ->; by rewrite lookup_insert_eq in Hres).
    assert (res ≠ ll).
    { intros ->. by rewrite (lookup_weaken _ _ _ _ Hlabels Hsl6) in Hres. }
    assert (sl ≠ ll) by congruence.
    repeat split.
    + apply lookup_insert_eq.
    + by rewrite !lookup_insert_ne.
    + by rewrite lookup_insert_ne, lookup_insert_eq.
    + eapply lookup_weaken_None; [exact Hres|]. by etrans.
    + by eapply lookup_weaken_None.
    + by eapply lookup_weaken_None.
Qed.

Lemma postprocess_outcome self inputs candidate_labels multi_label h :
  wp (postprocess self inputs candidate_labels multi_label)
     (λ r h',
        h ⊆ h'
        ∧ ∀ res, r = Ok res →
            ∃ out_labels out_scores xs ss,
              h' !! res = Some (ODict (<[OutputKeys.LABELS := out_labels]>
                                         {[OutputKeys.SCORES := out_scores]}))
              ∧ h' !! out_labels = Some (OStrList xs)
              ∧ h' !! out_scores = Some (OFloatList ss)
              ∧ h !! res = None
              ∧ h !! out_labels = None
              ∧ h !! out_scores = None) h.
Proof.
  assert (H0 : h ⊆ h) by done. unfold postprocess.
  frame_step d h1 H0 H1.
  frame_step lg h2 H1 H2.
  frame_step arr h3 H2 H3.
  by apply rank_outcome.
Qed.

(** *** The call on objects computes what the call on values computes *)

Lemma wp_bind {A B} (m : M A) (f : A → M B) Q h :
  wp m (λ r h1, match r with
                | Ok a => wp (f a) Q h1
                | Raise e => Q (Raise e) h1
                end) h →
  wp (m ≫= f) Q h.
Proof. unfold wp. rewrite bind_run. by destruct (m h) as [[a|e] h1]. Qed.

Lemma wp_ret {A} (a : A) (Q : result A → heap → Prop) h :
  Q (Ok a) h → wp (mret a) Q h.
Proof. done. Qed.

Lemma wp_lift {A} (r : result A) (Q : result A → heap → Prop) h :
  Q r h → wp (lift r) Q h.
Proof. done. Qed.

Lemma wp_read l o (Q : result obj → heap → Prop) h :
  h !! l = Some o → Q (Ok o) h → wp (read l) Q h.
Proof. intros Hl HQ. unfold wp, read. by rewrite Hl. Qed.

Lemma wp_read_dict l d (Q : result (gmap string loc) → heap → Prop) h :
  h !! l = Some (ODict d) → Q (Ok d) h → wp (read_dict l) Q h.
Proof. intros Hl HQ. apply wp_bind, (wp_read _ _ _ _ Hl). by apply wp_ret. Qed.

Lemma wp_read_str_list l xs (Q : result (list string) → heap → Prop) h :
  h !! l = Some (OStrList xs) → Q (Ok xs) h → wp (read_str_list l) Q h.
Proof. intros Hl HQ. apply wp_bind, (wp_read _ _ _ _ Hl). by apply wp_ret. Qed.

Lemma wp_read_indices l xs (Q : result (list nat) → heap → Prop) h :
  h !! l = Some (OIndices xs) → Q (Ok xs) h → wp (read_indices l) Q h.
Proof. intros Hl HQ. apply wp_bind, (wp_read _ _ _ _ Hl). by apply wp_ret. Qed.

Lemma wp_read_array2 l a (Q : result ndarray2 → heap → Prop) h :
  h !! l = Some (OArray2 a) → Q (Ok a) h → wp (read_array2 l) Q h.
Proof. intros Hl HQ. apply wp_bind, (wp_read _ _ _ _ Hl). by apply wp_ret. Qed.

Lemma wp_read_array1 l a (Q : result ndarray1 → heap → Prop) h0 h :
  holds_array1 h0 l a → h0 ⊆ h → Q (Ok a) h → wp (read_array1 l) Q h.
Proof. intros Hl Hsub HQ. unfold wp. by rewrite (Hl h Hsub). Qed.

Lemma holds_array1_owned h l a : h !! l = Some (OArray1 a) → holds_array1 h l a.
Proof.
  intros Hl h' Hsub. unfold read_array1. rewrite bind_run. unfold read.
  by rewrite (lookup_weaken _ _ _ _ Hl Hsub).
Qed.

Lemma holds_array1_view h l base col rows a :
  h !! l = Some (OColumnView base col) → h !! base = Some (OArray2 rows) →
  Numpy.take_col rows col = Ok a → holds_array1 h l a.
Proof.
  intros Hl Hb Hcol h' Hsub. unfold read_array1. rewrite bind_run. unfold read.
  rewrite (lookup_weaken _ _ _ _ Hl Hsub). rewrite bind_run.
  unfold read_array2. rewrite bind_run. unfold read.
  rewrite (lookup_weaken _ _ _ _ Hb Hsub). simpl. unfold lift. by rewrite Hcol.
Qed.

End StoreFacts.

Section refinement.
Import StoreFacts.
Context (self : ZeroShotClassificationPipeline).

Lemma independent_refines logits rows h :
  h !! logits = Some (Store.OArray2 rows) →
  Store.wp
    (logits ← Store.take_cols logits
                [contradiction_id self; entailment_id self];
     probs ← Store.softmax_rows logits;
     Store.take_col probs 1)
    (Store.scores_agree h
       (logits ← Numpy.take_cols rows
                   [contradiction_id self; entailment_id self];
        probs ← Numpy.softmax_rows logits;
        Numpy.take_col probs 1)) h.
Proof.
  intros Hlg. apply wp_bind. unfold Store.take_cols.
  apply wp_bind, (wp_read_array2 _ _ _ _ Hlg).
  apply wp_bind, wp_lift.
  destruct (Numpy.take_cols rows _) as [sel|e]; [|by split].
  apply wp_alloc. intros l1 Hl1. rewrite bind_Ok.
  set (h1 := <[l1 := Store.OArray2 sel]> h).
  assert (H1 : h ⊆ h1) by (by apply insert_subseteq).
  apply wp_bind. unfold Store.softmax_rows.
  apply wp_bind, (wp_read_array2 _ sel); [apply lookup_insert_eq|].
  apply wp_bind, wp_lift.
  destruct (Numpy.softmax_rows sel) as [probs|e]; [|by split].
  apply wp_alloc. intros l2 Hl2. rewrite bind_Ok.
  set (h2 := <[l2 := Store.OArray2 probs]> h1).
  assert (H2 : h1 ⊆ h2) by (by apply insert_subseteq).
  unfold Store.take_col.
  apply wp_bind, (wp_read_array2 _ probs); [apply lookup_insert_eq|].
  apply wp_bind, wp_lift.
  destruct (Numpy.take_col probs 1) as [sc|e] eqn:Hsc;
    [|split; [by etrans|done]].
  apply wp_alloc. intros l3 Hl3. split.
  - etrans; [exact H1|]. etrans; [exact H2|]. by apply insert_subseteq.
  - apply (holds_array1_view _ _ l2 1 probs); [apply lookup_insert_eq| |done].
    rewrite lookup_insert_ne; [apply lookup_insert_eq|].
    intros ->. unfold h2 in Hl3. by rewrite lookup_insert_eq in Hl3.
Qed.

Lemma exclusive_refines logits rows h :
  h !! logits = Some (Store.OArray2 rows) →
  Store.wp
    (logits ← Store.take_col logits (entailment_id self);
     Store.softmax logits)
    (Store.scores_agree h
       (logits ← Numpy.take_col rows (entailment_id self);
        Numpy.softmax logits)) h.
Proof.
  intros Hlg. apply wp_bind. unfold Store.take_col.
  apply wp_bind, (wp_read_array2 _ _ _ _ Hlg).
  apply wp_bind, wp_lift.
  destruct (Numpy.take_col rows _) as [col|e] eqn:Hcol; [|by split].
  apply wp_alloc. intros l1 Hl1. rewrite bind_Ok.
  set (h1 := <[l1 := Store.OColumnView logits (entailment_id self)]> h).
  assert (H1 : h ⊆ h1) by (by apply insert_subseteq).
  assert (Hview : Store.holds_array1 h1 l1 col).
  { apply (holds_array1_view _ _ logits (entailment_id self) rows);
      [apply lookup_insert_eq| |done].
    exact (lookup_weaken _ _ _ _ Hlg H1). }
  unfold Store.softmax.
  apply wp_bind, (wp_read_array1 _ col _ h1); [done..|].
  apply wp_bind, wp_lift.
  destruct (Numpy.softmax col) as [sc|e]; [|by split].
  apply wp_alloc. intros l2 Hl2. split.
  - etrans; [exact H1|]. by apply insert_subseteq.
  - apply holds_array1_owned, lookup_insert_eq.
Qed.

Lemma label_scores_refines logits candidate_labels multi_label rows xs h :
  h !! logits = Some (Store.OArray2 rows) →
  h !! candidate_labels = Some (Store.OStrList xs) →
  Store.wp (Store.label_scores self logits candidate_labels multi_label)
    (Store.scores_agree h (label_scores self rows xs multi_label)) h.
Proof.
  intros Hlg Hcl. unfold Store.label_scores, label_scores.
  apply wp_bind. destruct multi_label.
  - apply wp_ret. by apply independent_refines.
  - apply wp_bind, (wp_read_str_list _ _ _ _ Hcl). apply wp_ret.
    rewrite orb_false_l. destruct (bool_decide (length xs = 1)).
    + by apply independent_refines.
    + by apply exclusive_refines.
Qed.

(** Lines 84-89 on objects against the same lines on values. *)
Lemma rank_refines candidate_labels scores xs sc h0 h :
  h !! candidate_labels = Some (Store.OStrList xs) →
  Store.holds_array1 h0 scores sc → h0 ⊆ h →
  Store.wp (Store.rank candidate_labels scores)
    (λ r h', Store.represents h' r
       (let reversed_index := reverse (Numpy.argsort sc) in
        out_labels ← traverse (getitem xs) reversed_index;
        out_scores ← traverse (getitem sc) reversed_index;
        Ok {| labels := out_labels; scores := out_scores |})) h.
Proof.
  intros Hcl Hsc H0. unfold Store.rank, Store.reversed_argsort. simpl.
  apply wp_bind, wp_bind, (wp_read_array1 _ sc _ h0); [done..|].
  apply wp_bind, wp_alloc. intros l1 Hl1.
  apply wp_bind, (wp_read_indices _ (Numpy.argsort sc));
    [apply lookup_insert_eq|].
  apply wp_alloc. intros l2 Hl2.
  set (h1 := <[l1 := Store.OIndices (Numpy.argsort sc)]> h) in *.
  set (h2 := <[l2 := Store.OIndices (reverse (Numpy.argsort sc))]> h1).
  assert (H1 : h ⊆ h1) by (by apply insert_subseteq).
  assert (H2 : h1 ⊆ h2) by (by apply insert_subseteq).
  apply wp_bind, (wp_read_indices _ (reverse (Numpy.argsort sc)));
    [apply lookup_insert_eq|].
  apply wp_bind, (wp_read_str_list _ xs).
  { eapply lookup_weaken; [exact Hcl|]. by etrans. }
  apply wp_bind, wp_lift.
  destruct (traverse (getitem xs) (reverse (Numpy.argsort sc)))
    as [out_labels|e]; [|done].
  apply wp_bind, wp_alloc. intros l3 Hl3.
  set (h3 := <[l3 := Store.OStrList out_labels]> h2).
  assert (H3 : h2 ⊆ h3) by (by apply insert_subseteq).
  apply wp_bind, (wp_read_array1 _ sc _ h0); [done| |].
  { etrans; [exact H0|]. etrans; [exact H1|]. by etrans. }
  apply wp_bind, wp_lift. rewrite bind_Ok.
  destruct (traverse (getitem sc) (reverse (Numpy.argsort sc)))
    as [out_scores|e]; [|done].
  apply wp_bind, wp_alloc. intros l4 Hl4.
  apply wp_alloc. intros l5 Hl5.
  assert (l4 ≠ l3) by (intros ->; unfold h3 in Hl4;
                       by rewrite lookup_insert_eq in Hl4).
  assert (l5 ≠ l4) by (intros ->; by rewrite lookup_insert_eq in Hl5).
  assert (l5 ≠ l3).
  { intros ->. rewrite lookup_insert_ne in Hl5 by done. unfold h3 in Hl5.
    by rewrite lookup_insert_eq in Hl5. }
  exists l3, l4. simpl. split; [apply lookup_insert_eq|]. split.
  - rewrite !lookup_insert_ne by done. apply lookup_insert_eq.
  - rewrite lookup_insert_ne by done. apply lookup_insert_eq.
Qed.

(** On a store that holds the arguments as Python has them, the call on
    objects ends as the call on values does. *)
Lemma postprocess_refines inputs candidate_labels multi_label
    d logits rows xs h :
  h !! inputs = Some (Store.ODict d) →
  d !! "logits" = Some logits →
  h !! logits = Some (Store.OArray2 rows) →
  h !! candidate_labels = Some (Store.OStrList xs) →
  Store.wp (Store.postprocess self inputs candidate_labels multi_label)
    (λ r h', Store.represents h' r
               (postprocess self {["logits" := rows]} xs multi_label)) h.
Proof.
  intros Hin Hd Hlg Hcl. unfold Store.postprocess, postprocess, dict_getitem.
  rewrite lookup_singleton_eq, bind_Ok.
  apply wp_bind, (wp_read_dict _ _ _ _ Hin).
  apply wp_bind, wp_lift. rewrite Hd.
  apply wp_bind.
  pose proof (label_scores_refines logits candidate_labels multi_label
                rows xs h Hlg Hcl) as Hls.
  unfold Store.wp in *.
  destruct (Store.label_scores self logits candidate_labels multi_label h)
    as [r h1].
  destruct Hls as [H1 Hls]. simpl in *.
  destruct (label_scores self rows xs multi_label) as [sc|e],
    r as [s|e']; try done.
  rewrite bind_Ok.
  apply (rank_refines candidate_labels s xs sc h1 h1); [|done..].
  exact (lookup_weaken _ _ _ _ Hcl H1).
Qed.

(** Whenever the call on values returns, so does the call on objects. *)
Lemma postprocess_on_objects_returns inputs candidate_labels multi_label
    d logits rows xs h out :
  h !! inputs = Some (Store.ODict d) →
  d !! "logits" = Some logits →
  h !! logits = Some (Store.OArray2 rows) →
  h !! candidate_labels = Some (Store.OStrList xs) →
  postprocess self {["logits" := rows]} xs multi_label = Ok out →
  ∃ res h' out_labels out_scores,
    Store.postprocess self inputs candidate_labels multi_label h
    = (Ok res, h')
    ∧ h' !! res
      = Some (Store.ODict (<[OutputKeys.LABELS := out_labels]>
                             {[OutputKeys.SCORES := out_scores]}))
    ∧ h' !! out_labels = Some (Store.OStrList (labels out))
    ∧ h' !! out_scores = Some (Store.OFloatList (scores out)).
Proof.
  intros Hin Hd Hlg Hcl Hout.
  pose proof (postprocess_refines inputs candidate_labels multi_label
                d logits rows xs h Hin Hd Hlg Hcl) as Href.
  unfold Store.wp in Href. rewrite Hout in Href.
  destruct (Store.postprocess self inputs candidate_labels multi_label h)
    as [[res|e] h']; [|done].
  destruct Href as (ll & sl & ?). exists res, h', ll, sl. by split.
Qed.

End refinement.

(** A call on a store that holds an [inputs] dict, its logits array and a
    one-label list returns. *)
Example postprocess_on_objects_urgent :
  let self := {| entailment_id := 0; contradiction_id := 2 |} in
  let h : Store.heap :=
    <[1%positive := Store.ODict {["logits" := 2%positive]}]>
      (<[2%positive := Store.OArray2 [[1 / 2; 0; 3 / 2]%R]]>
         {[3%positive := Store.OStrList ["urgent"]]}) in
  ∃ res h' out_labels out_scores s,
    Store.postprocess self 1%positive 3%positive false h = (Ok res, h')
    ∧ h' !! res
      = Some (Store.ODict (<[OutputKeys.LABELS := out_labels]>
                             {[OutputKeys.SCORES := out_scores]}))
    ∧ h' !! out_labels = Some (Store.OStrList ["urgent"])
    ∧ h' !! out_scores = Some (Store.OFloatList [s]).
Proof.
  intros self h.
  pose proof (postprocess_single_label ModelInstance self "urgent"
                (1 / 2) 0 (3 / 2) false eq_refl) as Hout.
  destruct (postprocess_on_objects_returns self 1%positive 3%positive false
              {["logits" := 2%positive]} 2%positive
              [[1 / 2; 0; 3 / 2]%R] ["urgent"] h _
              eq_refl eq_refl eq_refl eq_refl Hout)
    as (res & h' & ll & sl & Hrun & Hres & Hll & Hsl).
  by exists res, h', ll, sl, (exp (1 / 2) / (exp (3 / 2) + exp (1 / 2)))%R.
Qed.

(** C10. [postprocess] changes none of the objects it is given: in the
    store it leaves behind, whether it returns or raises, every object
    that existed at the call, among them the [inputs] dict, the logits
    array it refers to and the [candidate_labels] list, is what it was.
    The dict it returns and the labels and scores lists in it are new
    objects: their locations were not in use when the call started. *)
Theorem postprocess_leaves_arguments_unchanged
    self (inputs candidate_labels : Store.loc) multi_label (h : Store.heap) :
  let '(r, h') :=
    Store.postprocess self inputs candidate_labels multi_label h in
  (∀ l o, h !! l = Some o → h' !! l = Some o)
  ∧ ∀ res, r = Ok res →
      ∃ out_labels out_scores xs ss,
        h' !! res
        = Some (Store.ODict (<[OutputKeys.LABELS := out_labels]>
                               {[OutputKeys.SCORES := out_scores]}))
        ∧ h' !! out_labels = Some (Store.OStrList xs)
        ∧ h' !! out_scores = Some (Store.OFloatList ss)
        ∧ h !! res = None
        ∧ h !! out_labels = None
        ∧ h !! out_scores = None.
Proof.
  pose proof (StoreFacts.postprocess_outcome self inputs candidate_labels
                multi_label h) as [Hsub Hres].
  destruct (Store.postprocess self inputs candidate_labels multi_label h)
    as [r h'].
  split; [|exact Hres].
  intros l o Hl. exact (lookup_weaken _ _ _ _ Hl Hsub).
Qed.

(* ================================================================== *)
(** * Further properties of the pipeline *)

(** ** Mismatched and missing arguments of [postprocess] *)

Lemma traverse_Forall2 {A A' B} (f : A → result B) (g : A' → result B) xs ys :
  Forall2 (λ x y, f x = g y) xs ys → traverse f xs = traverse g ys.
Proof.
  induction 1 as [|x y xs ys Hxy _ IH]; [reflexivity|].
  simpl. by rewrite Hxy, IH.
Qed.

Lemma traverse_getitem_out_of_range {A} (l : list A) (idx : list nat)
    (i : nat) :
  i ∈ idx → (length l ≤ i)%nat → traverse (getitem l) idx = Raise IndexError.
Proof.
  intros Hin Hi.
  assert (Hfail : getitem l i = Raise IndexError).
  { unfold getitem. by rewrite lookup_ge_None_2. }
  induction Hin as [i idx|i j idx _ IH];
    cbn [traverse]; fold (@traverse nat A).
  - by rewrite Hfail.
  - destruct (getitem l j) as [x|e] eqn:Hj.
    + by rewrite bind_Ok, IH.
    + unfold getitem in Hj. destruct (l !! j); by inversion Hj.
Qed.

Lemma traverse_getitem_seq_take {A} (l : list A) n :
  (n ≤ length l)%nat → traverse (getitem l) (seq 0 n) = Ok (take n l).
Proof.
  intros Hn. rewrite <- (traverse_getitem_seq (take n l)).
  rewrite length_take, Nat.min_l by done.
  apply traverse_ext_Forall, Forall_forall. intros i Hi%elem_of_seq.
  unfold getitem. rewrite lookup_take_lt by lia. reflexivity.
Qed.

Section row_counts.
Import Numpy NumpyFacts SoftmaxFacts.
Context (model : model_arg) (self : ZeroShotClassificationPipeline).
Hypothesis Hinit : __init__ model = Ok self.

(** The scores exist, one per row, as soon as the branch taken can handle
    the number of rows: the independent branch always, the exclusive one
    when there is a row. *)
Lemma label_scores_rows (logits : ndarray2) (candidate_labels : list string)
    multi_label :
  valid_logits logits →
  multi_label = true ∨ length candidate_labels = 1 ∨ logits ≠ [] →
  ∃ scs, label_scores self logits candidate_labels multi_label = Ok scs
         ∧ length scs = length logits.
Proof.
  intros Hvalid Hcase.
  destruct (decide (multi_label = true ∨ length candidate_labels = 1))
    as [Hb|Hb].
  - rewrite label_scores_independent by done.
    destruct (independent_scores_valid model self Hinit _ Hvalid)
      as [scs Hscs].
    exists scs. split; [done|]. by apply traverse_length in Hscs.
  - assert (multi_label = false) as -> by (destruct multi_label; tauto).
    rewrite label_scores_exclusive by tauto.
    destruct (entailment_column_valid model self Hinit _ Hvalid)
      as [col Hcol].
    rewrite Hcol, bind_Ok. pose proof (traverse_length _ _ _ Hcol) as Hl.
    assert (col ≠ []) as Hcne.
    { intros ->. destruct logits; [tauto|done]. }
    rewrite softmax_closed by done. eexists. split; [done|].
    by rewrite length_fmap.
Qed.

End row_counts.

(** The index list of [postprocess] is a rearrangement of the positions of
    [scores]. *)
Lemma reversed_index_Permutation scs :
  reverse (Numpy.argsort scs) ≡ₚ seq 0 (length scs).
Proof. by rewrite reverse_Permutation, NumpyFacts.argsort_Permutation. Qed.

(** X1. Without a [logits] entry in [inputs], [postprocess] raises
    [KeyError('logits')] whatever the labels and the flag are; on objects,
    it raises the same error and leaves the store exactly as it found it:
    nothing was allocated. *)
Theorem postprocess_missing_logits
    self (inputs : gmap string ndarray2) (candidate_labels : list string)
    multi_label (h : Store.heap) (inputs_ref labels_ref : Store.loc)
    (d : gmap string Store.loc) :
  inputs !! "logits" = None →
  h !! inputs_ref = Some (Store.ODict d) →
  d !! "logits" = None →
  postprocess self inputs candidate_labels multi_label
  = Raise (KeyError "logits")
  ∧ Store.postprocess self inputs_ref labels_ref multi_label h
    = (Raise (KeyError "logits"), h).
Proof.
  intros Hin Hd Hlg. split.
  - unfold postprocess, dict_getitem. by rewrite Hin.
  - unfold Store.postprocess. rewrite StoreFacts.bind_run.
    unfold Store.read_dict. rewrite StoreFacts.bind_run.
    unfold Store.read. rewrite Hd. simpl.
    rewrite StoreFacts.bind_run. unfold Store.lift, dict_getitem.
    by rewrite Hlg.
Qed.

Lemma postprocess_missing_logits_witness :
  let self := {| entailment_id := 0; contradiction_id := 2 |} in
  let h : Store.heap := {[1%positive := Store.ODict ∅]} in
  postprocess self ∅ ["sports"] true = Raise (KeyError "logits")
  ∧ Store.postprocess self 1%positive 2%positive true h
    = (Raise (KeyError "logits"), h).
Proof.
  apply (postprocess_missing_logits
           {| entailment_id := 0; contradiction_id := 2 |} ∅ ["sports"] true
           {[1%positive := Store.ODict ∅]} 1%positive 2%positive ∅).
  - reflexivity.
  - reflexivity.
  - reflexivity.
Defined.

(** X2. When the logits tensor has more rows than there are candidate
    labels, [postprocess] raises [IndexError]: the scores are computed, and
    [candidate_labels[i]] then fails for a position past the labels. *)
Theorem postprocess_more_rows_than_labels
    model self (inputs : gmap string ndarray2) logits
    (candidate_labels : list string) multi_label :
  __init__ model = Ok self →
  inputs !! "logits" = Some logits →
  valid_logits logits →
  (length candidate_labels < length logits)%nat →
  postprocess self inputs candidate_labels multi_label = Raise IndexError.
Proof.
  intros Hinit Hlogits Hvalid Hlen.
  destruct (label_scores_rows model self Hinit logits candidate_labels
              multi_label Hvalid) as (scs & Hscs & Hrows).
  { right. right. intros ->. simpl in Hlen. lia. }
  unfold postprocess, dict_getitem. rewrite Hlogits, bind_Ok, Hscs, bind_Ok.
  rewrite (traverse_getitem_out_of_range candidate_labels _
             (length candidate_labels)); [done| |done].
  rewrite reversed_index_Permutation. apply elem_of_seq. lia.
Qed.

Lemma postprocess_more_rows_than_labels_witness :
  postprocess {| entailment_id := 0; contradiction_id := 2 |}
    {["logits" := [[1; 0; 3]; [2; 0; 1]]%R]} ["sports"] false
  = Raise IndexError.
Proof.
  apply (postprocess_more_rows_than_labels ModelInstance _ _
           [[1; 0; 3]; [2; 0; 1]]%R).
  - reflexivity.
  - apply lookup_singleton_eq.
  - repeat constructor.
  - simpl. lia.
Defined.

(** X3. When the logits tensor has fewer rows than there are candidate
    labels, [postprocess] does not raise (provided the branch taken can
    handle the rows: [multi_label], a single label, or at least one row):
    it returns one entry per row, and the returned labels are a
    rearrangement of the first [len(logits)] candidate labels; the labels
    past the rows are dropped. *)
Theorem postprocess_fewer_rows_than_labels
    model self (inputs : gmap string ndarray2) logits
    (candidate_labels : list string) multi_label :
  __init__ model = Ok self →
  inputs !! "logits" = Some logits →
  valid_logits logits →
  (length logits ≤ length candidate_labels)%nat →
  multi_label = true ∨ length candidate_labels = 1 ∨ logits ≠ [] →
  ∃ out, postprocess self inputs candidate_labels multi_label = Ok out
    ∧ length (labels out) = length logits
    ∧ length (scores out) = length logits
    ∧ labels out ≡ₚ take (length logits) candidate_labels.
Proof.
  intros Hinit Hlogits Hvalid Hlen Hcase.
  destruct (label_scores_rows model self Hinit logits candidate_labels
              multi_label Hvalid Hcase) as (scs & Hscs & Hrows).
  unfold postprocess, dict_getitem. rewrite Hlogits, bind_Ok, Hscs, bind_Ok.
  pose proof (reversed_index_Permutation scs) as Hidx. symmetry in Hidx.
  destruct (traverse_Permutation (getitem candidate_labels) _ _
              (take (length scs) candidate_labels) Hidx) as (ls & Hls & Hpl).
  { apply traverse_getitem_seq_take. lia. }
  destruct (traverse_Permutation (getitem scs) _ _ scs Hidx)
    as (ss & Hss & Hps).
  { apply traverse_getitem_seq. }
  rewrite Hls, bind_Ok, Hss, bind_Ok. eexists. split; [done|]. simpl.
  rewrite <- Hrows. repeat split.
  - rewrite <- Hpl, length_take. lia.
  - by rewrite <- Hps.
  - done.
Qed.

Lemma postprocess_fewer_rows_than_labels_witness :
  ∃ out, postprocess {| entailment_id := 0; contradiction_id := 2 |}
           {["logits" := [[1; 0; 3]]%R]} ["sports"; "politics"] false = Ok out
    ∧ length (labels out) = 1
    ∧ length (scores out) = 1
    ∧ labels out ≡ₚ take 1 ["sports"; "politics"].
Proof.
  apply (postprocess_fewer_rows_than_labels ModelInstance _ _ [[1; 0; 3]]%R).
  - reflexivity.
  - apply lookup_singleton_eq.
  - repeat constructor.
  - simpl. lia.
  - right. right. discriminate.
Defined.

(** ** Which logits [postprocess] looks at *)

Section columns_read.
Context (self : ZeroShotClassificationPipeline).

Lemma getitem_agree {A} (r1 r2 : list A) i :
  r1 !! i = r2 !! i → getitem r1 i = getitem r2 i.
Proof. unfold getitem. by intros ->. Qed.

(** The scores are a function of the entailment and contradiction columns
    of the tensor. *)
Lemma label_scores_agree logits1 logits2 (candidate_labels : list string)
    multi_label :
  Forall2 (λ r1 r2 : list R,
             r1 !! entailment_id self = r2 !! entailment_id self
             ∧ r1 !! contradiction_id self = r2 !! contradiction_id self)
    logits1 logits2 →
  label_scores self logits1 candidate_labels multi_label
  = label_scores self logits2 candidate_labels multi_label.
Proof.
  intros Hagree. unfold label_scores, Numpy.take_cols, Numpy.take_col.
  destruct (multi_label || bool_decide (length candidate_labels = 1)).
  - f_equal. apply traverse_Forall2.
    eapply Forall2_impl; [exact Hagree|]. intros r1 r2 [He Hc]. simpl.
    by rewrite (getitem_agree _ _ _ He), (getitem_agree _ _ _ Hc).
  - f_equal. apply traverse_Forall2.
    eapply Forall2_impl; [exact Hagree|]. intros r1 r2 [He _].
    by apply getitem_agree.
Qed.

(** In the exclusive branch they are a function of the entailment column
    alone. *)
Lemma label_scores_agree_exclusive logits1 logits2
    (candidate_labels : list string) :
  length candidate_labels ≠ 1 →
  Forall2 (λ r1 r2 : list R,
             r1 !! entailment_id self = r2 !! entailment_id self)
    logits1 logits2 →
  label_scores self logits1 candidate_labels false
  = label_scores self logits2 candidate_labels false.
Proof.
  intros Hlen Hagree. rewrite !label_scores_exclusive by done.
  f_equal. unfold Numpy.take_col. apply traverse_Forall2.
  eapply Forall2_impl; [exact Hagree|]. intros r1 r2 He.
  by apply getitem_agree.
Qed.

Lemma postprocess_same_scores (inputs1 inputs2 : gmap string ndarray2)
    logits1 logits2 (candidate_labels : list string) multi_label :
  inputs1 !! "logits" = Some logits1 →
  inputs2 !! "logits" = Some logits2 →
  label_scores self logits1 candidate_labels multi_label
  = label_scores self logits2 candidate_labels multi_label →
  postprocess self inputs1 candidate_labels multi_label
  = postprocess self inputs2 candidate_labels multi_label.
Proof.
  intros H1 H2 Heq. unfold postprocess, dict_getitem.
  by rewrite H1, H2, !bind_Ok, Heq.
Qed.

End columns_read.

(** X4. The neutral logit (column 1) never influences the outcome of
    [postprocess]: two tensors whose rows agree on columns 0 and 2 give the
    same result, or the same exception, for every list of labels and
    either value of [multi_label]. *)
Theorem postprocess_ignores_neutral
    model self (inputs1 inputs2 : gmap string ndarray2) logits1 logits2
    (candidate_labels : list string) multi_label :
  __init__ model = Ok self →
  inputs1 !! "logits" = Some logits1 →
  inputs2 !! "logits" = Some logits2 →
  Forall2 (λ r1 r2 : list R, r1 !! 0 = r2 !! 0 ∧ r1 !! 2 = r2 !! 2)
    logits1 logits2 →
  postprocess self inputs1 candidate_labels multi_label
  = postprocess self inputs2 candidate_labels multi_label.
Proof.
  intros Hinit H1 H2 Hagree. destruct (init_ids _ _ Hinit) as [He Hc].
  apply (postprocess_same_scores self _ _ logits1 logits2); [done..|].
  apply label_scores_agree. by rewrite He, Hc.
Qed.

Lemma postprocess_ignores_neutral_witness :
  postprocess {| entailment_id := 0; contradiction_id := 2 |}
    {["logits" := [[1; 0; 3]; [2; 5; 1]]%R]} ["a"; "b"] true
  = postprocess {| entailment_id := 0; contradiction_id := 2 |}
      {["logits" := [[1; 7; 3]; [2; 9; 1]]%R]} ["a"; "b"] true.
Proof.
  apply (postprocess_ignores_neutral ModelInstance _ _ _
           [[1; 0; 3]; [2; 5; 1]]%R [[1; 7; 3]; [2; 9; 1]]%R).
  - reflexivity.
  - apply lookup_singleton_eq.
  - apply lookup_singleton_eq.
  - repeat constructor.
Defined.

(** X5. With [multi_label] false and a number of labels other than one,
    [postprocess] looks at the entailment logits only: two tensors whose
    rows agree on column 0 give the same result, or the same exception,
    whatever their contradiction and neutral logits are. *)
Theorem postprocess_exclusive_reads_entailment_only
    model self (inputs1 inputs2 : gmap string ndarray2) logits1 logits2
    (candidate_labels : list string) :
  __init__ model = Ok self →
  inputs1 !! "logits" = Some logits1 →
  inputs2 !! "logits" = Some logits2 →
  length candidate_labels ≠ 1 →
  Forall2 (λ r1 r2 : list R, r1 !! 0 = r2 !! 0) logits1 logits2 →
  postprocess self inputs1 candidate_labels false
  = postprocess self inputs2 candidate_labels false.
Proof.
  intros Hinit H1 H2 Hlen Hagree. destruct (init_ids _ _ Hinit) as [He _].
  apply (postprocess_same_scores self _ _ logits1 logits2); [done..|].
  apply label_scores_agree_exclusive; [done|]. by rewrite He.
Qed.

Lemma postprocess_exclusive_reads_entailment_only_witness :
  postprocess {| entailment_id := 0; contradiction_id := 2 |}
    {["logits" := [[1; 0; 3]; [2; 5; 1]]%R]} ["a"; "b"] false
  = postprocess {| entailment_id := 0; contradiction_id := 2 |}
      {["logits" := [[1; 7; 4]; [2; 9; 8]]%R]} ["a"; "b"] false.
Proof.
  apply (postprocess_exclusive_reads_entailment_only ModelInstance _ _ _
           [[1; 0; 3]; [2; 5; 1]]%R [[1; 7; 4]; [2; 9; 8]]%R).
  - reflexivity.
  - apply lookup_singleton_eq.
  - apply lookup_singleton_eq.
  - simpl. lia.
  - repeat constructor.
Defined.

(** ** Keywords [_sanitize_parameters] does not know *)

(** X6. [_sanitize_parameters] looks at three keywords only:
    [candidate_labels], [hypothesis_template] and [multi_label].  Keyword
    mappings that agree on these three give the same outcome, so any other
    keyword is dropped without an error and reaches no stage. *)
Theorem sanitize_ignores_other_keywords (kwargs1 kwargs2 : gmap string pyval) :
  kwargs1 !! "candidate_labels" = kwargs2 !! "candidate_labels" →
  kwargs1 !! "hypothesis_template" = kwargs2 !! "hypothesis_template" →
  kwargs1 !! "multi_label" = kwargs2 !! "multi_label" →
  Sanitize._sanitize_parameters kwargs1 = Sanitize._sanitize_parameters kwargs2.
Proof.
  intros Hcl Hht Hml.
  destruct (kwargs1 !! "candidate_labels") as [cl|] eqn:H1.
  - rewrite (sanitize_present kwargs1 cl H1).
    rewrite (sanitize_present kwargs2 cl) by done.
    by rewrite Hht, Hml.
  - rewrite (sanitize_absent kwargs1 H1).
    by rewrite (sanitize_absent kwargs2).
Qed.

Lemma sanitize_ignores_other_keywords_witness :
  Sanitize._sanitize_parameters
    (<["top_k" := PyStr "3"]> {["candidate_labels" := PyList [PyStr "a"]]})
  = Sanitize._sanitize_parameters
      {["candidate_labels" := PyList [PyStr "a"]]}.
Proof.
  apply sanitize_ignores_other_keywords; reflexivity.
Defined.

(** ** The exclusive branch without rows *)

(** X9. With [multi_label] false and a number of candidate labels other
    than one, a logits tensor without rows makes [postprocess] raise the
    [ValueError] of the maximum over a zero-size array, however many labels
    there are: the exclusive branch needs at least one row. *)
Theorem postprocess_exclusive_needs_a_row
    self (inputs : gmap string ndarray2) (candidate_labels : list string) :
  inputs !! "logits" = Some [] →
  length candidate_labels ≠ 1 →
  postprocess self inputs candidate_labels false
  = Raise (ValueError
      "zero-size array to reduction operation maximum which has no identity").
Proof.
  intros Hlogits Hlen. unfold postprocess, dict_getitem.
  rewrite Hlogits, bind_Ok, label_scores_exclusive by done. reflexivity.
Qed.

Lemma postprocess_exclusive_needs_a_row_witness :
  postprocess {| entailment_id := 0; contradiction_id := 2 |}
    {["logits" := []]} ["sports"; "politics"] false
  = Raise (ValueError
      "zero-size array to reduction operation maximum which has no identity").
Proof.
  apply postprocess_exclusive_needs_a_row.
  - apply lookup_singleton_eq.
  - simpl. lia.
Defined.

(** ** The forward stage *)

(** X10. [forward] runs the base class's forward execution on the same
    batch and parameters with gradient tracking switched off, hands back
    its outcome, return value or exception, unchanged, and leaves the
    gradient mode as the caller had it, whatever the base execution did to
    the mode in between; the rest of the state is as the base execution
    left it. *)
Theorem forward_runs_without_grad_and_restores_mode
    {S Batch Params Output : Type}
    (super_forward : Batch → Params → world S → result Output * world S)
    (inputs : Batch) (forward_params : Params) (w : world S) :
  let '(r, w') := forward super_forward inputs forward_params w in
  let '(r0, w0) :=
    super_forward inputs forward_params
      {| grad_enabled := false; rest := rest w |} in
  r = r0 ∧ grad_enabled w' = grad_enabled w ∧ rest w' = rest w0.
Proof.
  unfold forward, no_grad, set_grad_enabled.
  by destruct (super_forward inputs forward_params _) as [r0 w0].
Qed.

(** ** The one error of [_sanitize_parameters] *)

(** X11. The only exception [_sanitize_parameters] can raise is the
    [ValueError] about the missing label, and it raises it only when the
    [candidate_labels] keyword is absent: the [pop] of [candidate_labels]
    is guarded by the membership test and never raises [KeyError]. *)
Theorem sanitize_only_error (kwargs : gmap string pyval) e :
  Sanitize._sanitize_parameters kwargs = Raise e →
  kwargs !! "candidate_labels" = None
  ∧ e = ValueError "You must include at least one label.".
Proof.
  destruct (kwargs !! "candidate_labels") as [cl|] eqn:Hcl.
  - by rewrite (sanitize_present kwargs cl Hcl).
  - rewrite (sanitize_absent kwargs Hcl). by intros [= <-].
Qed.

Lemma sanitize_only_error_witness :
  (∅ : gmap string pyval) !! "candidate_labels" = None
  ∧ ValueError Sanitize.missing_label_msg
    = ValueError "You must include at least one label.".
Proof.
  apply (sanitize_only_error ∅ (ValueError Sanitize.missing_label_msg)).
  reflexivity.
Defined.

(** ** Scores and the text of the labels *)

Lemma traverse_cons {A B} (f : A → result B) x xs :
  traverse f (x :: xs) = f x ≫= λ y, traverse f xs ≫= λ ys, Ok (y :: ys).
Proof. reflexivity. Qed.

Lemma traverse_getitem_same_length {A} (l1 l2 : list A) (idx : list nat) :
  length l1 = length l2 →
  match traverse (getitem l1) idx, traverse (getitem l2) idx with
  | Ok _, Ok _ => True
  | Raise e1, Raise e2 => e1 = e2
  | _, _ => False
  end.
Proof.
  intros Hlen. induction idx as [|i idx IH]; [done|].
  rewrite !traverse_cons.
  destruct (decide (i < length l1)) as [Hi|Hi].
  - destruct (lookup_lt_is_Some_2 l1 i Hi) as [x1 H1].
    destruct (lookup_lt_is_Some_2 l2 i ltac:(lia)) as [x2 H2].
    assert (G1 : getitem l1 i = Ok x1) by (unfold getitem; by rewrite H1).
    assert (G2 : getitem l2 i = Ok x2) by (unfold getitem; by rewrite H2).
    rewrite G1, G2, !bind_Ok.
    by destruct (traverse (getitem l1) idx), (traverse (getitem l2) idx).
  - assert (G1 : getitem l1 i = Raise IndexError).
    { unfold getitem. rewrite lookup_ge_None_2 by lia. done. }
    assert (G2 : getitem l2 i = Raise IndexError).
    { unfold getitem. rewrite lookup_ge_None_2 by lia. done. }
    by rewrite G1, G2.
Qed.

(** X12. The scores [postprocess] returns depend on the candidate labels
    only through their number: two label lists of the same length give the
    same scores, in the same order, or the same exception.  The text of a
    label plays no part in scoring or ranking. *)
Theorem postprocess_scores_ignore_label_text
    self (inputs : gmap string ndarray2)
    (candidate_labels1 candidate_labels2 : list string) multi_label :
  length candidate_labels1 = length candidate_labels2 →
  match postprocess self inputs candidate_labels1 multi_label,
        postprocess self inputs candidate_labels2 multi_label with
  | Ok out1, Ok out2 => scores out1 = scores out2
  | Raise e1, Raise e2 => e1 = e2
  | _, _ => False
  end.
Proof.
  intros Hlen. unfold postprocess.
  destruct (dict_getitem inputs "logits") as [logits|e]; [|done].
  rewrite !bind_Ok.
  assert (Hsame : label_scores self logits candidate_labels1 multi_label
                  = label_scores self logits candidate_labels2 multi_label).
  { unfold label_scores. by rewrite Hlen. }
  rewrite Hsame.
  destruct (label_scores self logits candidate_labels2 multi_label)
    as [scs|e]; [|done].
  rewrite !bind_Ok.
  pose proof (traverse_getitem_same_length candidate_labels1 candidate_labels2
                (reverse (Numpy.argsort scs)) Hlen) as Hls.
  destruct (traverse (getitem candidate_labels1) _) as [ls1|e1],
           (traverse (getitem candidate_labels2) _) as [ls2|e2];
    try done.
  rewrite !bind_Ok.
  by destruct (traverse (getitem scs) _).
Qed.

Lemma postprocess_scores_ignore_label_text_witness :
  match postprocess {| entailment_id := 0; contradiction_id := 2 |}
          {["logits" := [[1; 0; 3]; [2; 0; 1]]%R]} ["a"; "b"] true,
        postprocess {| entailment_id := 0; contradiction_id := 2 |}
          {["logits" := [[1; 0; 3]; [2; 0; 1]]%R]} ["sports"; "politics"] true
  with
  | Ok out1, Ok out2 => scores out1 = scores out2
  | Raise e1, Raise e2 => e1 = e2
  | _, _ => False
  end.
Proof.
  apply postprocess_scores_ignore_label_text. reflexivity.
Defined.
